(** * sajari-sdk-go: the request-building and response-decoding layer

    A shallow embedding of the marshalling code of the SDK (record.go, the
    filter, boost, aggregate, sort and tracking builders, search.go and the
    record-store client calls), followed by the properties the specification
    states about it.

    Conventions of the embedding:
    - a Go [string] is a [string] of bytes; a slice is a [list] (a nil slice
      is the empty list); a Go map is a [gmap];
    - a Go function returning [(T, error)] with exactly one of the two set
      returns a [result]; a run-time panic (nil dereference, index out of
      range) is the third outcome [Panic];
    - a client call that may return both a value and an error returns the
      pair [(T, option error)]; remote procedure calls are the nodes of a
      call tree ([rpc]), answered by a handler that stands for the service. *)

From Stdlib Require Import Ascii String.
From stdpp Require Import gmap strings list fin_maps pretty.

Set Warnings "-register-all".
Open Scope Z_scope.

(** ** Errors *)

(** Go's [error] values, as far as this package builds or inspects them.
    [ErrNoSuchRecord] is the package-level sentinel; [errorString] is what
    [errors.New] and [fmt.Errorf] build; [rpcError c desc] is the gRPC status
    error [grpc.Errorf(c, desc)]; [MultiError] is the package's [[]error],
    whose entries may be nil. *)
Inductive error : Type :=
| ErrNoSuchRecord
| errorString (s : string)
| rpcError (c : Z) (desc : string)
| MultiError (es : list (option error)).

(** Outcome of a marshalling function. *)
Inductive result (A : Type) : Type :=
| Ok (a : A)
| Err (e : error)
| Panic.
Arguments Ok {A} a.
Arguments Err {A} e.
Arguments Panic {A}.

#[global] Instance result_ret : MRet result := fun A a => Ok a.
#[global] Instance result_bind : MBind result := fun A B f m =>
  match m with
  | Ok a => f a
  | Err e => Err e
  | Panic => Panic
  end.

(** The loop
    [for _, x := range xs { y, err := f(x); if err != nil { return nil, err }; out = append(out, y) }]. *)
Definition collect {A B : Type} (f : A → result B) : list A → result (list B) :=
  fix go (xs : list A) : result (list B) :=
    match xs with
    | [] => Ok []
    | x :: xs' =>
        match f x with
        | Ok y => match go xs' with
                  | Ok ys => Ok (y :: ys)
                  | Err e => Err e
                  | Panic => Panic
                  end
        | Err e => Err e
        | Panic => Panic
        end
    end.

(** ** The parts of Go's standard library the package calls *)

Module codes.
(** google.golang.org/grpc/codes *)
Definition OK : Z := 0.
Definition NotFound : Z := 5.

Definition String (c : Z) : string :=
  match c with
  | 0 => "OK" | 1 => "Canceled" | 2 => "Unknown" | 3 => "InvalidArgument"
  | 4 => "DeadlineExceeded" | 5 => "NotFound" | 6 => "AlreadyExists"
  | 7 => "PermissionDenied" | 8 => "ResourceExhausted"
  | 9 => "FailedPrecondition" | 10 => "Aborted" | 11 => "OutOfRange"
  | 12 => "Unimplemented" | 13 => "Internal" | 14 => "Unavailable"
  | 15 => "DataLoss" | 16 => "Unauthenticated"
  | _ => "Code(" +:+ pretty c +:+ ")"
  end.
End codes.

Module strings.
(** Membership of a byte in an ASCII cutset. *)
Fixpoint contains_byte (cutset : string) (c : ascii) : bool :=
  match cutset with
  | EmptyString => false
  | String d rest => if decide (c = d) then true else contains_byte rest c
  end.

(** [strings.TrimRight(s, cutset)] for an ASCII cutset: the trailing bytes
    that belong to the cutset are removed. *)
Fixpoint TrimRight (s cutset : string) : string :=
  match s with
  | EmptyString => EmptyString
  | String c rest =>
      match TrimRight rest cutset with
      | EmptyString =>
          if contains_byte cutset c then EmptyString else String c EmptyString
      | t => String c t
      end
  end.

Fixpoint TrimLeft (s cutset : string) : string :=
  match s with
  | EmptyString => EmptyString
  | String c rest =>
      if contains_byte cutset c then TrimLeft rest cutset else s
  end.

(** The ASCII white space of [unicode.IsSpace]: tab, line feed, vertical
    tab, form feed, carriage return and space.  [TrimSpace] is only applied
    to strings over the bytes [ <>=!~^$], where this is all of Go's white
    space. *)
Definition space : string :=
  String (ascii_of_nat 9) (String (ascii_of_nat 10) (String (ascii_of_nat 11)
  (String (ascii_of_nat 12) (String (ascii_of_nat 13) " ")))).

Definition TrimSpace (s : string) : string :=
  TrimRight (TrimLeft s space) space.

(** The slice expression [s[n:]]. *)
Fixpoint from (n : nat) (s : string) : string :=
  match n, s with
  | O, _ => s
  | S n', String _ rest => from n' rest
  | S _, EmptyString => EmptyString
  end.

Definition HasPrefix (s p : string) : bool := String.prefix p s.

Definition TrimPrefix (s p : string) : string :=
  if HasPrefix s p then from (String.length p) s else s.
End strings.

(** Integer conversions [int32(x)] and [uint32(x)]: truncation to 32 bits. *)
Definition int32 (x : Z) : Z := (x + 2 ^ 31) `mod` 2 ^ 32 - 2 ^ 31.
Definition uint32 (x : Z) : Z := x `mod` 2 ^ 32.

(** A floating-point number.  The package never computes with floats: it
    copies them into wire messages or prints them with [%v].  The decimal
    rendering is produced by Go's [strconv]; a float is carried here as its
    IEEE bit pattern together with that rendering. *)
Record float : Type := mkFloat { float_bits : Z; float_v : string }.

(** [time.Time], as far as the package looks at it: [Unix()] and the
    nanosecond remainder. *)
Record Time : Type := mkTime { Unix : Z; Nanosecond : Z }.

(** ** Dynamically typed values ([interface{}]) *)

Inductive intKind : Type :=
| int | uint | int64 | uint64 | int32_t | uint32_t | int16 | uint16 | int8 | uint8.

Inductive floatKind : Type := float32 | float64.

(** The fourteen dynamic types of the first [case] of [pbSingleValue] and
    [pbValueFromInterface]. *)
Inductive scalar : Type :=
| IntV (k : intKind) (n : Z)
| FloatV (k : floatKind) (x : float)
| StringV (s : string)
| BoolV (b : bool).

(** A value held in an [interface{}]: nil, one of the scalars, a
    [time.Time], one of the three slice types the package knows, or a value
    of any other dynamic type, given by the type's name as [%T] prints it. *)
Inductive iface : Type :=
| Nil
| Scalar (s : scalar)
| TimeV (t : Time)
| Strings (vs : list string)
| Ints (xs : list Z)
| Int64s (xs : list Z)
| Other (ty : string).

Module fmt.
(** [fmt.Sprintf("%v", x)] on a scalar. *)
Definition v (x : scalar) : string :=
  match x with
  | IntV _ n => pretty n
  | FloatV _ f => float_v f
  | StringV s => s
  | BoolV b => if b then "true" else "false"
  end.

Definition intKind_T (k : intKind) : string :=
  match k with
  | int => "int" | uint => "uint" | int64 => "int64" | uint64 => "uint64"
  | int32_t => "int32" | uint32_t => "uint32" | int16 => "int16"
  | uint16 => "uint16" | int8 => "int8" | uint8 => "uint8"
  end.

(** [fmt.Sprintf("%T", x)]. *)
Definition T (x : iface) : string :=
  match x with
  | Nil => "<nil>"
  | Scalar (IntV k _) => intKind_T k
  | Scalar (FloatV float32 _) => "float32"
  | Scalar (FloatV float64 _) => "float64"
  | Scalar (StringV _) => "string"
  | Scalar (BoolV _) => "bool"
  | TimeV _ => "time.Time"
  | Strings _ => "[]string"
  | Ints _ => "[]int"
  | Int64s _ => "[]int64"
  | Other ty => ty
  end.
End fmt.

(** [Error()] of the errors above.  A gRPC status error prints as grpc-go
    does. *)
Fixpoint Error (e : error) : string :=
  match e with
  | ErrNoSuchRecord => "sajari: no such record"
  | errorString s => s
  | rpcError c desc => "rpc error: code = " +:+ codes.String c +:+ " desc = " +:+ desc
  | MultiError me =>
      let fix loop (me : list (option error)) (n : nat) (msg : string)
          : nat * string :=
        match me with
        | [] => (n, msg)
        | None :: rest => loop rest n msg
        | Some e :: rest =>
            loop rest (S n) (match n with O => Error e | _ => msg end)
        end in
      let '(n, msg) := loop me O "" in
      match n with
      | 0%nat => "(0 errors)"
      | 1%nat => msg
      | 2%nat => msg +:+ " (and 1 other error)"
      | _ => msg +:+ " (and " +:+ pretty n +:+ " other errors)"
      end
  end.

(** ** record.go: records, values and keys *)

(** Wire messages of the record store (package [enginepb] and [pb]). *)
Module enginepb.
(** [Value]: a oneof that is a single string, a repeated list of strings,
    or unset. *)
Inductive Value : Type :=
| Value_Single (Single : string)
| Value_Repeated_ (Values : list string)
| Value_unset.

(** [Key]; the [Value] field is a pointer and may be nil. *)
Record Key : Type := mkKey { Field : string; Value_ : option Value }.
End enginepb.

Module pb.
Record Record_ : Type := mkRecord { Values : gmap string enginepb.Value }.
Record Transform : Type := mkTransform { Identifier : string }.
Record Records : Type :=
  mkRecords { Records_ : list Record_; Transforms : list Transform }.
End pb.

Module rpcpb.
Record Status : Type := mkStatus { Code : Z; Message : string }.
End rpcpb.

Definition BodyField : string := "_body".
Definition IDField : string := "_id".

(** [type Record map[string]interface{}] *)
Abbreviation Record := (gmap string iface) (only parsing).

(** [NewRecord]: the loop copies [values] into a fresh map, then the body is
    stored under [BodyField]. *)
Definition NewRecord (body : string) (values : gmap string iface) : Record :=
  let d := map_fold (λ k v (d : gmap string iface), <[k := v]> d) ∅ values in
  <[BodyField := Scalar (StringV body)]> d.

Definition valueFromProto (v : option enginepb.Value) : result iface :=
  match v with
  | None => Panic
  | Some (enginepb.Value_Single s) => Ok (Scalar (StringV s))
  | Some (enginepb.Value_Repeated_ vs) => Ok (Strings vs)
  | Some enginepb.Value_unset => Err (errorString "unexpected type: <nil>")
  end.

Definition pbSingleValue (x : iface) : result enginepb.Value :=
  match x with
  | Scalar x => Ok (enginepb.Value_Single (fmt.v x))
  | _ => Err (errorString ("expected single value, got " +:+ fmt.T x))
  end.

Definition pbValueFromInterface (x : iface) : result enginepb.Value :=
  match x with
  | Scalar x => Ok (enginepb.Value_Single (fmt.v x))
  | TimeV t => Ok (enginepb.Value_Single (pretty (Unix t)))
  | Strings vs => Ok (enginepb.Value_Repeated_ vs)
  | Ints xs => Ok (enginepb.Value_Repeated_ (map pretty xs))
  | Int64s xs => Ok (enginepb.Value_Repeated_ (map pretty xs))
  | _ => Err (errorString ("unsupported value: " +:+ fmt.T x))
  end.

(** [protoValues.proto]: every value of the map is converted; the first
    failure met ends the loop.  Go leaves the iteration order of a map
    unspecified; the order of [map_fold] is one of the possible ones. *)
Definition protoValues_proto (p : gmap string iface)
    : result (gmap string enginepb.Value) :=
  map_fold (λ k v acc,
              values ← acc;
              vv ← pbValueFromInterface v;
              Ok (<[k := vv]> values))
           (Ok ∅) p.

Definition Record_proto (r : Record) : result pb.Record_ :=
  values ← protoValues_proto r; Ok (pb.mkRecord values).

Definition records_proto (rs : list Record) : result (list pb.Record_) :=
  collect Record_proto rs.

(** [Key]; a [*Key] is an [option Key]. *)
Record Key : Type := mkKey { field : string; value : iface }.

Definition NewKey (field : string) (value : iface) : option Key :=
  Some (mkKey field value).

Definition Key_proto (k : option Key) : result enginepb.Key :=
  match k with
  | None => Err (errorString "empty key")
  | Some k =>
      match pbSingleValue (value k) with
      | Ok vv => Ok (enginepb.mkKey (field k) (Some vv))
      | Err err =>
          Err (errorString ("error marshalling key value: " +:+ Error err))
      | Panic => Panic
      end
  end.

Definition keys_proto (ks : list (option Key)) : result (list enginepb.Key) :=
  collect Key_proto ks.

Definition keyFromProto (k : enginepb.Key) : result (option Key) :=
  match enginepb.Field k, enginepb.Value_ k with
  | EmptyString, None => Ok None
  | _, _ =>
      val ← valueFromProto (enginepb.Value_ k);
      Ok (NewKey (enginepb.Field k) val)
  end.

Definition pbKeys_keys (pbks : list enginepb.Key) : result (list (option Key)) :=
  collect keyFromProto pbks.

Definition recordFromProto (pbr : pb.Record_) : result Record :=
  map_fold (λ k v acc,
              d ← acc;
              vv ← valueFromProto (Some v);
              Ok (<[k := vv]> d))
           (Ok ∅) (pb.Values pbr).

Definition pbRecords_records (pbrs : list pb.Record_) : result (list Record) :=
  collect recordFromProto pbrs.

(** The [switch] in the loop of [multiErrorFromRecordStatusProto]: the error
    of one status, with [c := codes.Code(s.Code)] (an unsigned 32-bit code):
    nil for OK, [ErrNoSuchRecord] for NotFound, a gRPC error otherwise. *)
Definition recordStatusError (s : rpcpb.Status) : option error :=
  let c := uint32 (rpcpb.Code s) in
  if decide (c = codes.OK) then None
  else if decide (c = codes.NotFound) then Some ErrNoSuchRecord
  else Some (rpcError c (rpcpb.Message s)).

(** [multiErrorFromRecordStatusProto]: one entry per status; the whole is
    nil when every status is OK.  The loop state is [(out, empty)]. *)
Definition multiErrorFromRecordStatusProto (status : list rpcpb.Status)
    : option error :=
  let '(out, empty) :=
    foldl (λ '(out, empty) s,
             let err := recordStatusError s in
             (out ++ [err], if err is None then empty else false))
          ([], true) status in
  if empty then None else Some (MultiError out).

(** ** The query model's wire messages *)

Module querypb.
Inductive Filter_Field_Operator : Type :=
| Filter_Field_EQUAL_TO
| Filter_Field_NOT_EQUAL_TO
| Filter_Field_GREATER_THAN
| Filter_Field_GREATER_THAN_OR_EQUAL_TO
| Filter_Field_LESS_THAN
| Filter_Field_LESS_THAN_OR_EQUAL_TO
| Filter_Field_CONTAINS
| Filter_Field_DOES_NOT_CONTAIN
| Filter_Field_HAS_PREFIX
| Filter_Field_HAS_SUFFIX.

Inductive Filter_Combinator_Operator : Type :=
| Filter_Combinator_ALL
| Filter_Combinator_ANY
| Filter_Combinator_ONE
| Filter_Combinator_NONE.

Inductive Filter_Geo_Region : Type := Filter_Geo_INSIDE | Filter_Geo_OUTSIDE.

(** [Filter]: a oneof of a field filter, a combinator and a geo filter. *)
Inductive Filter : Type :=
| Filter_Field_ (Field : string) (Operator : Filter_Field_Operator)
                (Value : enginepb.Value)
| Filter_Combinator_ (Operator : Filter_Combinator_Operator)
                     (Filters : list Filter)
| Filter_Geo_ (FieldLat FieldLng : string) (Lat Lng Radius : float)
              (Region : Filter_Geo_Region).

Record FieldBoost_Interval_Point : Type :=
  mkPoint { Point : float; PointValue : float }.

Inductive FieldBoost : Type :=
| FieldBoost_Filter_ (Filter : Filter) (Value : float)
| FieldBoost_Interval_ (Field : string) (Points : list FieldBoost_Interval_Point)
| FieldBoost_Element_ (Field : string) (Elts : list string)
| FieldBoost_Text_ (Field Text : string).

Record SearchRequest_FeatureQuery_FieldBoost : Type :=
  mkFeatureFieldBoost { FieldBoost_ : FieldBoost; FeatureValue : float }.

Inductive InstanceBoost : Type :=
| InstanceBoost_Field_ (Field : string) (Value : float)
| InstanceBoost_Score_ (MinCount : Z) (Threshold : float).

Inductive Aggregate_Metric_Type : Type :=
| Aggregate_Metric_AVG
| Aggregate_Metric_MIN
| Aggregate_Metric_MAX
| Aggregate_Metric_SUM.

Record Aggregate_Bucket_Bucket : Type :=
  mkBucket { BucketName : string; BucketFilter : Filter }.

Inductive Aggregate : Type :=
| Aggregate_Count_ (Field : string)
| Aggregate_Bucket_ (Buckets : list Aggregate_Bucket_Bucket)
| Aggregate_Metric_ (Field : string) (Type_ : Aggregate_Metric_Type).

Inductive Sort_Order : Type := Sort_ASC | Sort_DESC.

(** [Sort]: the oneof [Type] only has the case [Sort_Field]. *)
Record Sort : Type := mkSort { Sort_Field : string; Order : Sort_Order }.

Record Body : Type := mkBody { BodyText : string; BodyWeight : float }.

Record Term : Type := mkTerm {
  TermValue : string; TermField : string; Pos : Z; Neg : Z;
  TermWeight : float; WordOffset : Z; ParaOffset : Z }.

Record Transform : Type := mkTransform { Identifier : string }.

Record SearchRequest_IndexQuery : Type := mkIndexQuery {
  IQBody : list Body; IQTerms : list Term;
  IQFieldBoosts : list FieldBoost; IQInstanceBoosts : list InstanceBoost }.

Record SearchRequest_FeatureQuery : Type :=
  mkFeatureQuery { FQFieldBoosts : list SearchRequest_FeatureQuery_FieldBoost }.

Record SearchRequest : Type := mkSearchRequest {
  Offset : Z; Limit : Z; Fields : list string;
  IndexQuery : SearchRequest_IndexQuery;
  FeatureQuery : SearchRequest_FeatureQuery;
  Filter_ : option Filter;
  Sort_ : list Sort;
  Aggregates : gmap string Aggregate;
  Transforms : list Transform }.

Record AnalyseRequest : Type :=
  mkAnalyseRequest { SearchRequest_ : SearchRequest; Keys : list enginepb.Key }.
End querypb.

(** Package [api/query/v1]: the search request with its tracking part. *)
Module apipb.
Inductive SearchRequest_Tracking_Type : Type :=
| SearchRequest_Tracking_NONE
| SearchRequest_Tracking_CLICK
| SearchRequest_Tracking_POS_NEG.

Record SearchRequest_Tracking : Type := mkTracking {
  Type_ : SearchRequest_Tracking_Type; QueryId : string; Sequence : Z;
  Field : string; Data : gmap string string }.

Record SearchRequest : Type := mkSearchRequest {
  Tracking : SearchRequest_Tracking; SearchRequest_ : querypb.SearchRequest }.
End apipb.

(** ** Filters *)

(** A [Filter] interface value: nil, or one of the three filter structs.
    [combFilterOp] and [GeoFilterRegion] are Go [int] types, so a struct can
    hold any integer there. *)
Inductive Filter : Type :=
| nilFilter
| fieldFilter (op field : string) (value : iface)
| combFilter (op : Z) (filters : list Filter)
| geoFilter (fieldLat fieldLng : string) (lat lng radius : float) (region : Z).

Definition FieldFilter (fieldOp : string) (value : iface) : Filter :=
  let field := strings.TrimRight fieldOp " <>=!~^$" in
  fieldFilter (strings.TrimSpace (strings.from (String.length field) fieldOp))
              field value.

Definition combFilterOpAll : Z := 0.
Definition combFilterOpAny : Z := 1.
Definition combFilterOpOne : Z := 2.
Definition combFilterOpNone : Z := 3.

Definition newCombFilter (op : Z) (filters : list Filter) : Filter :=
  combFilter op filters.

Definition AllFilters (filters : list Filter) : Filter :=
  newCombFilter combFilterOpAll filters.
Definition AnyFilter (filters : list Filter) : Filter :=
  newCombFilter combFilterOpAny filters.
Definition OneOfFilters (filters : list Filter) : Filter :=
  newCombFilter combFilterOpOne filters.
Definition NoneOfFilters (filters : list Filter) : Filter :=
  newCombFilter combFilterOpNone filters.

Definition GeoFilterInside : Z := 0.
Definition GeoFilterOutside : Z := 1.

Definition GeoFilter (fieldLat fieldLng : string) (lat lng radius : float)
    (region : Z) : Filter :=
  geoFilter fieldLat fieldLng lat lng radius region.

(** The [switch ff.op] of [fieldFilter.proto]; [None] is its [default]. *)
Definition fieldFilterOperator (op : string) : option querypb.Filter_Field_Operator :=
  if decide (op = "=") then Some querypb.Filter_Field_EQUAL_TO
  else if decide (op = "!=") then Some querypb.Filter_Field_NOT_EQUAL_TO
  else if decide (op = ">") then Some querypb.Filter_Field_GREATER_THAN
  else if decide (op = ">=") then Some querypb.Filter_Field_GREATER_THAN_OR_EQUAL_TO
  else if decide (op = "<") then Some querypb.Filter_Field_LESS_THAN
  else if decide (op = "<=") then Some querypb.Filter_Field_LESS_THAN_OR_EQUAL_TO
  else if decide (op = "~") then Some querypb.Filter_Field_CONTAINS
  else if decide (op = "!~") then Some querypb.Filter_Field_DOES_NOT_CONTAIN
  else if decide (op = "^") then Some querypb.Filter_Field_HAS_PREFIX
  else if decide (op = "$") then Some querypb.Filter_Field_HAS_SUFFIX
  else None.

(** The [switch cf.op] of [combFilter.proto]. *)
Definition combinatorOperator (op : Z) : option querypb.Filter_Combinator_Operator :=
  match op with
  | 0 => Some querypb.Filter_Combinator_ALL
  | 1 => Some querypb.Filter_Combinator_ANY
  | 2 => Some querypb.Filter_Combinator_ONE
  | 3 => Some querypb.Filter_Combinator_NONE
  | _ => None
  end.

(** The [switch gb.region] of [geoFilter.proto]. *)
Definition geoRegion (region : Z) : option querypb.Filter_Geo_Region :=
  match region with
  | 0 => Some querypb.Filter_Geo_INSIDE
  | 1 => Some querypb.Filter_Geo_OUTSIDE
  | _ => None
  end.

(** The method [proto] of the three filter types; calling it on a nil
    interface value panics. *)
Fixpoint Filter_proto (f : Filter) : result querypb.Filter :=
  match f with
  | nilFilter => Panic
  | fieldFilter op field value =>
      match fieldFilterOperator op with
      | None => Err (errorString ("invalid field filter operator: " +:+ op))
      | Some pbop =>
          match pbValueFromInterface value with
          | Ok v => Ok (querypb.Filter_Field_ field pbop v)
          | Err err => Err (errorString ("error marshalling value: " +:+ Error err))
          | Panic => Panic
          end
      end
  | combFilter op filters =>
      match combinatorOperator op with
      | None => Err (errorString ("invalid combinator operator: " +:+ pretty op))
      | Some pbop =>
          match collect Filter_proto filters with
          | Ok pfs => Ok (querypb.Filter_Combinator_ pbop pfs)
          | Err err => Err err
          | Panic => Panic
          end
      end
  | geoFilter fieldLat fieldLng lat lng radius region =>
      match geoRegion region with
      | None =>
          Err (errorString ("geo filter: invalid region '" +:+ pretty region +:+ "'"))
      | Some pbregion =>
          Ok (querypb.Filter_Geo_ fieldLat fieldLng lat lng radius pbregion)
      end
  end.

(** ** Field boosts, feature boosts and instance boosts *)

Record IntervalPoint : Type := mkIntervalPoint { Point : float; Value : float }.

Inductive FieldBoost : Type :=
| nilFieldBoost
| filterFieldBoost (filter : Filter) (value : float)
| intervalFieldBoost (field : string) (values : list IntervalPoint)
| elementFieldBoost (field : string) (elts : list string)
| textFieldBoost (field text : string).

Definition FilterFieldBoost (f : Filter) (value : float) : FieldBoost :=
  filterFieldBoost f value.
Definition IntervalFieldBoost (field : string) (values : list IntervalPoint) : FieldBoost :=
  intervalFieldBoost field values.
Definition ElementFieldBoost (field : string) (elts : list string) : FieldBoost :=
  elementFieldBoost field elts.
Definition TextFieldBoost (field text : string) : FieldBoost :=
  textFieldBoost field text.

Definition pointValues_proto (pvs : list IntervalPoint)
    : list querypb.FieldBoost_Interval_Point :=
  map (λ pv, querypb.mkPoint (Point pv) (Value pv)) pvs.

Definition FieldBoost_proto (b : FieldBoost) : result querypb.FieldBoost :=
  match b with
  | nilFieldBoost => Panic
  | filterFieldBoost filter value =>
      pf ← Filter_proto filter; Ok (querypb.FieldBoost_Filter_ pf value)
  | intervalFieldBoost field values =>
      Ok (querypb.FieldBoost_Interval_ field (pointValues_proto values))
  | elementFieldBoost field elts => Ok (querypb.FieldBoost_Element_ field elts)
  | textFieldBoost field text => Ok (querypb.FieldBoost_Text_ field text)
  end.

Definition fieldBoosts_proto (bs : list FieldBoost) : result (list querypb.FieldBoost) :=
  collect FieldBoost_proto bs.

Record FeatureFieldBoost : Type :=
  mkFeatureFieldBoost { boost : FieldBoost; feature_value : float }.

Definition NewFeatureFieldBoost (b : FieldBoost) (value : float) : FeatureFieldBoost :=
  mkFeatureFieldBoost b value.

Definition FeatureFieldBoost_proto (ab : FeatureFieldBoost)
    : result querypb.SearchRequest_FeatureQuery_FieldBoost :=
  pbb ← FieldBoost_proto (boost ab);
  Ok (querypb.mkFeatureFieldBoost pbb (feature_value ab)).

Definition featureFieldBoosts_proto (bs : list FeatureFieldBoost)
    : result (list querypb.SearchRequest_FeatureQuery_FieldBoost) :=
  collect FeatureFieldBoost_proto bs.

Inductive InstanceBoost : Type :=
| nilInstanceBoost
| fieldInstanceBoost (field : string) (value : float)
| scoreInstanceBoost (minCount : Z) (threshold : float).

Definition FieldInstanceBoost (field : string) (value : float) : InstanceBoost :=
  fieldInstanceBoost field value.
Definition ScoreInstanceBoost (minCount : Z) (threshold : float) : InstanceBoost :=
  scoreInstanceBoost minCount threshold.

Definition InstanceBoost_proto (b : InstanceBoost) : result querypb.InstanceBoost :=
  match b with
  | nilInstanceBoost => Panic
  | fieldInstanceBoost field value => Ok (querypb.InstanceBoost_Field_ field value)
  | scoreInstanceBoost minCount threshold =>
      Ok (querypb.InstanceBoost_Score_ (uint32 minCount) threshold)
  end.

Definition instanceBoosts_proto (bs : list InstanceBoost)
    : result (list querypb.InstanceBoost) :=
  collect InstanceBoost_proto bs.

(** ** Aggregates *)

Record Bucket : Type := mkBucket { Name : string; BucketFilter : Filter }.

Definition Bucket_proto (b : Bucket) : result querypb.Aggregate_Bucket_Bucket :=
  filter ← Filter_proto (BucketFilter b);
  Ok (querypb.mkBucket (Name b) filter).

Inductive Aggregate : Type :=
| nilAggregate
| countAggregate (field : string)
| bucketAggregate (buckets : list Bucket)
| maxAggregate (field : string)
| minAggregate (field : string)
| avgAggregate (field : string)
| sumAggregate (field : string).

Definition CountAggregate (field : string) : Aggregate := countAggregate field.
Definition BucketAggregate (bs : list Bucket) : Aggregate := bucketAggregate bs.
Definition MaxAggregate (field : string) : Aggregate := maxAggregate field.
Definition MinAggregate (field : string) : Aggregate := minAggregate field.
Definition AvgAggregate (field : string) : Aggregate := avgAggregate field.
Definition SumAggregate (field : string) : Aggregate := sumAggregate field.

Definition metricAggregateProto (field : string) (ty : querypb.Aggregate_Metric_Type)
    : result querypb.Aggregate :=
  Ok (querypb.Aggregate_Metric_ field ty).

Definition Aggregate_proto (a : Aggregate) : result querypb.Aggregate :=
  match a with
  | nilAggregate => Panic
  | countAggregate field => Ok (querypb.Aggregate_Count_ field)
  | bucketAggregate buckets =>
      pbuckets ← collect Bucket_proto buckets;
      Ok (querypb.Aggregate_Bucket_ pbuckets)
  | maxAggregate m => metricAggregateProto m querypb.Aggregate_Metric_MAX
  | minAggregate m => metricAggregateProto m querypb.Aggregate_Metric_MIN
  | avgAggregate m => metricAggregateProto m querypb.Aggregate_Metric_AVG
  | sumAggregate m => metricAggregateProto m querypb.Aggregate_Metric_SUM
  end.

(** [aggregates.proto], a loop over a map (see [protoValues_proto] for the
    iteration order). *)
Definition aggregates_proto (as_ : gmap string Aggregate)
    : result (gmap string querypb.Aggregate) :=
  map_fold (λ k v acc,
              m ← acc;
              a ← Aggregate_proto v;
              Ok (<[k := a]> m))
           (Ok ∅) as_.

(** ** Sort *)

Inductive Sort : Type :=
| nilSort
| SortByField (s : string).

Definition Sort_proto (s : Sort) : result querypb.Sort :=
  match s with
  | nilSort => Panic
  | SortByField s =>
      if strings.HasPrefix s "-"
      then Ok (querypb.mkSort (strings.TrimPrefix s "-") querypb.Sort_DESC)
      else Ok (querypb.mkSort s querypb.Sort_ASC)
  end.

Definition sorts_proto (ss : list Sort) : result (list querypb.Sort) :=
  collect Sort_proto ss.

(** ** Tracking *)

(** [type TrackingType string] *)
Abbreviation TrackingType := string (only parsing).
Definition TrackingNone : TrackingType := "".
Definition TrackingClick : TrackingType := "CLICK".
Definition TrackingPosNeg : TrackingType := "POS_NEG".

Definition TrackingType_proto (t : TrackingType)
    : result apipb.SearchRequest_Tracking_Type :=
  if decide (t = TrackingNone) then Ok apipb.SearchRequest_Tracking_NONE
  else if decide (t = TrackingClick) then Ok apipb.SearchRequest_Tracking_CLICK
  else if decide (t = TrackingPosNeg) then Ok apipb.SearchRequest_Tracking_POS_NEG
  else Err (errorString ("unknown TrackingType: " +:+ t)).

Record Tracking : Type := mkTracking {
  Type_ : TrackingType; QueryID : string; Sequence : Z; Field : string;
  Data : gmap string string }.

Definition Tracking_proto (t : Tracking) : result apipb.SearchRequest_Tracking :=
  pbType ← TrackingType_proto (Type_ t);
  Ok (apipb.mkTracking pbType (QueryID t) (int32 (Sequence t)) (Field t) (Data t)).

(** ** transform.go *)

(** [type Transform string] *)
Abbreviation Transform := string (only parsing).
Definition SplitStopStemIndexedFieldsTranform : Transform := "split-stop-stem-indexed-fields".
Definition StopStemTransform : Transform := "stop-stem".
Definition SplitIndexedFieldsTransform : Transform := "split-indexed-fields".

(** ** search.go: the request *)

Record Body : Type := mkBody { BodyText : string; BodyWeight : float }.

Definition Body_proto (w : Body) : querypb.Body :=
  querypb.mkBody (BodyText w) (BodyWeight w).

Record Term : Type := mkTerm {
  TermValue : string; TermField : string; Pos : Z; Neg : Z; Weight : float;
  WOff : Z; POff : Z }.

Definition Term_proto (t : Term) : querypb.Term :=
  querypb.mkTerm (TermValue t) (TermField t) (uint32 (Pos t)) (uint32 (Neg t))
                 (Weight t) (uint32 (WOff t)) (uint32 (POff t)).

Definition terms_proto (ts : list Term) : list querypb.Term := map Term_proto ts.

(** The constant [1.0] with its [%v] rendering. *)
Definition float_one : float := mkFloat 4607182418800017408 "1".

Record IndexQuery : Type := mkIndexQuery {
  Text : string; IQBody : list Body; Terms : list Term;
  FieldBoosts : list FieldBoost; InstanceBoosts : list InstanceBoost }.

Definition IndexQuery_proto (q : IndexQuery) : result querypb.SearchRequest_IndexQuery :=
  let wb := if decide (Text q = "") then IQBody q
            else IQBody q ++ [mkBody (Text q) float_one] in
  metaBoosts ← fieldBoosts_proto (FieldBoosts q);
  indexBoosts ← instanceBoosts_proto (InstanceBoosts q);
  Ok (querypb.mkIndexQuery (map Body_proto wb) (terms_proto (Terms q))
                           metaBoosts indexBoosts).

Record FeatureQuery : Type := mkFeatureQuery { FQFieldBoosts : list FeatureFieldBoost }.

Definition FeatureQuery_proto (q : FeatureQuery) : result querypb.SearchRequest_FeatureQuery :=
  afbs ← featureFieldBoosts_proto (FQFieldBoosts q);
  Ok (querypb.mkFeatureQuery afbs).

Record Request : Type := mkRequest {
  ReqTracking : Tracking;
  ReqFilter : Filter;
  ReqIndexQuery : IndexQuery;
  ReqFeatureQuery : FeatureQuery;
  Offset : Z;
  Limit : Z;
  ReqSort : list Sort;
  Fields : list string;
  Aggregates : gmap string Aggregate;
  Transforms : list Transform }.

(** [Request.proto].  The parts are marshalled in the order of the source:
    index query, feature query, filter (when not nil), sort, aggregates,
    transforms, and the tracking last. *)
Definition Request_proto (r : Request) : result apipb.SearchRequest :=
  iq ← IndexQuery_proto (ReqIndexQuery r);
  fq ← FeatureQuery_proto (ReqFeatureQuery r);
  filter ← match ReqFilter r with
           | nilFilter => Ok None
           | f => pf ← Filter_proto f; Ok (Some pf)
           end;
  sts ← sorts_proto (ReqSort r);
  ags ← aggregates_proto (Aggregates r);
  let transforms := map querypb.mkTransform (Transforms r) in
  tracking ← Tracking_proto (ReqTracking r);
  Ok (apipb.mkSearchRequest tracking
        (querypb.mkSearchRequest (int32 (Offset r)) (int32 (Limit r)) (Fields r)
           iq fq filter sts ags transforms)).

(** ** The transport: remote calls as a call tree *)

(** Requests and responses of the record store, the score service and the
    analyse call, as the client builds and reads them. *)
Module recpb.
Record KeyScores_Score : Type :=
  mkScore { ScoreTerms : list string; Count : Z; Score : float }.
Record KeyScores : Type :=
  mkKeyScores { Key : enginepb.Key; Scores : list KeyScores_Score }.
Record IncrementRequest : Type := mkIncrementRequest { KeysScores : list KeyScores }.
End recpb.

Module resp.
Record Add : Type :=
  mkAdd { AddKeys : list enginepb.Key; AddStatus : list rpcpb.Status }.
Record Get : Type :=
  mkGet { Records : list pb.Record_; GetStatus : list rpcpb.Status }.
Record Statuses : Type := mkStatuses { Status : list rpcpb.Status }.
Record Analyse : Type :=
  mkAnalyse { Terms : list (list string); AnalyseStatus : list rpcpb.Status }.
End resp.

(** What a remote call returns: a response, or the transport's error. *)
Inductive reply (A : Type) : Type :=
| Reply (a : A)
| Fault (err : error).
Arguments Reply {A} a.
Arguments Fault {A} err.

(** [Client]: the project and collection every call is addressed to. *)
Record Client : Type := mkClient { Project : string; Collection : string }.

(** [Client.newContext]: the outgoing metadata attached to a call. *)
Definition newContext (c : Client) : gmap string string :=
  <["collection" := Collection c]> (<["project" := Project c]> ∅).

Definition DefaultAddTransforms : list Transform := [SplitStopStemIndexedFieldsTranform].

(** The remote procedures the client calls, each with the metadata of its
    context and its request, indexed by what it returns. *)
Inductive rpcE : Type → Type :=
| Store_Add (md : gmap string string) (req : pb.Records) : rpcE (reply resp.Add)
| Store_Get (md : gmap string string) (keys : list enginepb.Key) : rpcE (reply resp.Get)
| Store_Exists (md : gmap string string) (keys : list enginepb.Key)
    : rpcE (reply resp.Statuses)
| Store_Delete (md : gmap string string) (keys : list enginepb.Key)
    : rpcE (reply resp.Statuses)
| Query_Analyse (md : gmap string string) (req : querypb.AnalyseRequest)
    : rpcE (reply resp.Analyse)
| Score_Increment (md : gmap string string) (req : recpb.IncrementRequest)
    : rpcE (reply resp.Statuses).

(** A client operation: it returns, panics, or issues a remote call and
    continues with the reply. *)
Inductive rpc (A : Type) : Type :=
| Ret (a : A)
| Abort
| Call {X : Type} (e : rpcE X) (k : X → rpc A).
Arguments Ret {A} a.
Arguments Abort {A}.
Arguments Call {A X} e k.

Fixpoint rpc_bind {A B : Type} (m : rpc A) (f : A → rpc B) : rpc B :=
  match m with
  | Ret a => f a
  | Abort => Abort
  | Call e k => Call e (λ x, rpc_bind (k x) f)
  end.

#[global] Instance rpc_mret : MRet rpc := @Ret.
#[global] Instance rpc_mbind : MBind rpc := λ A B f m, rpc_bind m f.

(** The service: an answer to every call. *)
Definition handler : Type := ∀ X : Type, rpcE X → X.

(** Running an operation against a service; [None] is a panic. *)
Fixpoint run {A : Type} (h : handler) (m : rpc A) : option A :=
  match m with
  | Ret a => Some a
  | Abort => None
  | Call e k => run h (k (h _ e))
  end.

(** The remote calls an operation issues against a service, in order. *)
Fixpoint calls {A : Type} (h : handler) (m : rpc A) : list { X : Type & rpcE X } :=
  match m with
  | Ret _ | Abort => []
  | Call e k => existT _ e :: calls h (k (h _ e))
  end.

(** [v, err := f(); if err != nil { return onerr(err) }; ...] for a
    marshalling step inside an operation. *)
Definition try {A R : Type} (r : result A) (onerr : error → R) (k : A → rpc R) : rpc R :=
  match r with
  | Ok a => k a
  | Err err => Ret (onerr err)
  | Panic => Abort
  end.

(** [resp, err := client.Method(ctx, req); if err != nil { return onerr(err) }; ...] *)
Definition call {X R : Type} (e : rpcE (reply X)) (onerr : error → R) (k : X → rpc R)
    : rpc R :=
  Call e (λ r, match r with
               | Reply x => k x
               | Fault err => Ret (onerr err)
               end).

(** ** record.go: the record-store operations *)

Definition AddMulti (c : Client) (rs : list Record) (ts : list Transform)
    : rpc (list (option Key) * option error) :=
  try (records_proto rs) (λ err, ([], Some err)) (λ pbrs,
    let ts := match ts with [] => ts ++ DefaultAddTransforms | _ => ts end in
    let pbts := map pb.mkTransform ts in
    call (Store_Add (newContext c) (pb.mkRecords pbrs pbts))
         (λ err, ([], Some err)) (λ pbks,
      try (pbKeys_keys (resp.AddKeys pbks)) (λ err, ([], Some err)) (λ keys,
        Ret (keys, multiErrorFromRecordStatusProto (resp.AddStatus pbks))))).

Definition Add (c : Client) (r : Record) (ts : list Transform)
    : rpc (option Key * option error) :=
  '(ks, err) ← AddMulti c [r] ts;
  match err with
  | Some (MultiError me) =>
      match me with
      | me0 :: _ => Ret (None, me0)
      | [] => Abort
      end
  | Some err => Ret (None, Some err)
  | None =>
      match ks with
      | ks0 :: _ => Ret (ks0, None)
      | [] => Abort
      end
  end.

Definition DeleteMulti (c : Client) (ks : list (option Key)) : rpc (option error) :=
  try (keys_proto ks) Some (λ pbks,
    call (Store_Delete (newContext c) pbks) Some (λ resp,
      Ret (multiErrorFromRecordStatusProto (resp.Status resp)))).

Definition Delete (c : Client) (k : option Key) : rpc (option error) :=
  err ← DeleteMulti c [k];
  match err with
  | Some (MultiError me) =>
      match me with
      | me0 :: _ => Ret me0
      | [] => Abort
      end
  | _ => Ret err
  end.

Definition GetMulti (c : Client) (k : list (option Key))
    : rpc (list Record * option error) :=
  try (keys_proto k) (λ err, ([], Some err)) (λ pbks,
    call (Store_Get (newContext c) pbks) (λ err, ([], Some err)) (λ resp,
      try (pbRecords_records (resp.Records resp)) (λ err, ([], Some err)) (λ docs,
        Ret (docs, multiErrorFromRecordStatusProto (resp.GetStatus resp))))).

(** [Get]; the nil [Record] is the empty map. *)
Definition Get (c : Client) (k : option Key) : rpc (Record * option error) :=
  '(resp, err) ← GetMulti c [k];
  match err with
  | Some (MultiError me) =>
      match me with
      | me0 :: _ => Ret (∅, me0)
      | [] => Abort
      end
  | Some err => Ret (∅, Some err)
  | None =>
      match resp with
      | resp0 :: _ => Ret (resp0, None)
      | [] => Abort
      end
  end.

(** The body of the loop of [ExistsMulti], on the state
    [(out, errs, empty)]. *)
Definition existsStep (st : list bool * list (option error) * bool) (s : rpcpb.Status)
    : list bool * list (option error) * bool :=
  let '(out, errs, empty) := st in
  let c := uint32 (rpcpb.Code s) in
  if decide (c = codes.OK) then (out ++ [true], errs ++ [None], empty)
  else if decide (c = codes.NotFound)
       then (out ++ [false], errs ++ [None], empty)
       else (out, errs ++ [Some (rpcError c (rpcpb.Message s))], false).

Definition existsStatuses (status : list rpcpb.Status)
    : list bool * list (option error) * bool :=
  foldl existsStep ([], [], true) status.

Definition ExistsMulti (c : Client) (k : list (option Key))
    : rpc (list bool * option error) :=
  try (keys_proto k) (λ err, ([], Some err)) (λ pbks,
    call (Store_Exists (newContext c) pbks) (λ err, ([], Some err)) (λ resp,
      let '(out, errs, empty) := existsStatuses (resp.Status resp) in
      if empty then Ret (out, None) else Ret ([], Some (MultiError errs)))).

Definition Exists (c : Client) (k : option Key) : rpc (bool * option error) :=
  '(resp, err) ← ExistsMulti c [k];
  match err with
  | Some (MultiError me) =>
      match me with
      | me0 :: _ => Ret (false, me0)
      | [] => Abort
      end
  | Some err => Ret (false, Some err)
  | None =>
      match resp with
      | resp0 :: _ => Ret (resp0, None)
      | [] => Abort
      end
  end.

(** ** Analyse and learn *)

Definition AnalyseMulti (c : Client) (ks : list (option Key)) (r : Request)
    : rpc (list (list string) * option error) :=
  try (Request_proto r) (λ err, ([], Some err)) (λ pr,
    try (keys_proto ks) (λ err, ([], Some err)) (λ pbks,
      call (Query_Analyse (newContext c)
              (querypb.mkAnalyseRequest (apipb.SearchRequest_ pr) pbks))
           (λ err, ([], Some err)) (λ resp,
        Ret (resp.Terms resp,
             multiErrorFromRecordStatusProto (resp.AnalyseStatus resp))))).

Definition Analyse (c : Client) (k : option Key) (r : Request)
    : rpc (list string * option error) :=
  '(out, err) ← AnalyseMulti c [k] r;
  match err with
  | Some (MultiError me) =>
      match me with
      | me0 :: _ => Ret ([], me0)
      | [] => Abort
      end
  | Some err => Ret ([], Some err)
  | None =>
      match out with
      | out0 :: _ => Ret (out0, None)
      | [] => Abort
      end
  end.

(** The loop [for i, k := range pbks] of [LearnMulti]; indexing [ars],
    [counts] or [scores] out of range panics ([None]). *)
Fixpoint keysScores (i : nat) (pbks : list enginepb.Key) (ars : list (list string))
    (counts : list Z) (scores : list float) : option (list recpb.KeyScores) :=
  match pbks with
  | [] => Some []
  | k :: rest =>
      match ars !! i, counts !! i, scores !! i with
      | Some terms, Some count, Some score =>
          match keysScores (S i) rest ars counts scores with
          | Some out =>
              Some (recpb.mkKeyScores k [recpb.mkScore terms (int32 count) score] :: out)
          | None => None
          end
      | _, _, _ => None
      end
  end.

Definition LearnMulti (c : Client) (ks : list (option Key)) (r : Request)
    (counts : list Z) (scores : list float) : rpc (option error) :=
  if decide (length ks ≠ length counts ∨ length ks ≠ length scores)
  then Ret (Some (errorString "number of keys, counts and scores do not match"))
  else
    '(ars, err) ← AnalyseMulti c ks r;
    match err with
    | Some err => Ret (Some err)
    | None =>
        try (keys_proto ks) Some (λ pbks,
          match keysScores 0 pbks ars counts scores with
          | None => Abort
          | Some keysScores =>
              call (Score_Increment (newContext c) (recpb.mkIncrementRequest keysScores))
                   Some (λ resp,
                Ret (multiErrorFromRecordStatusProto (resp.Status resp)))
          end)
    end.

Definition Learn (c : Client) (k : option Key) (r : Request) (count : Z) (score : float)
    : rpc (option error) :=
  err ← LearnMulti c [k] r [count] [score];
  match err with
  | Some (MultiError me) =>
      match me with
      | me0 :: _ => Ret me0
      | [] => Abort
      end
  | _ => Ret err
  end.

(** ** record.go: mutations *)

Module mutatepb.
(** [MutateRequest_RecordMutation_FieldMutation]: the oneof [Mutation] only
    has the case [Set]. *)
Record FieldMutation : Type := mkFieldMutation { Field : string; Set_ : enginepb.Value }.
Record RecordMutation : Type :=
  mkRecordMutation { Key : enginepb.Key; FieldMutations : list FieldMutation }.
Record MutateRequest : Type := mkMutateRequest { RecordMutations : list RecordMutation }.
End mutatepb.

(** A [FieldMutation] interface value: nil, or a [setField]. *)
Inductive FieldMutation : Type :=
| nilFieldMutation
| setField (field : string) (value : iface).

Definition SetField (field : string) (value : iface) : FieldMutation :=
  setField field value.

(** [SetFields]: one [SetField] per entry of the map, in the order of the
    loop over the map ([map_to_list] is one of the possible orders). *)
Definition SetFields (m : gmap string iface) : list FieldMutation :=
  (λ kv, SetField kv.1 kv.2) <$> map_to_list m.

Definition FieldMutation_proto (fm : FieldMutation) : result mutatepb.FieldMutation :=
  match fm with
  | nilFieldMutation => Panic
  | setField field value =>
      v ← pbValueFromInterface value; Ok (mutatepb.mkFieldMutation field v)
  end.

Definition fieldMutations_proto (fms : list FieldMutation)
    : result (list mutatepb.FieldMutation) :=
  collect FieldMutation_proto fms.

Record RecordMutation : Type :=
  mkRecordMutation { MutationKey : option Key; FieldMutations : list FieldMutation }.

Definition RecordMutation_proto (m : RecordMutation) : result mutatepb.RecordMutation :=
  k ← Key_proto (MutationKey m);
  fms ← fieldMutations_proto (FieldMutations m);
  Ok (mutatepb.mkRecordMutation k fms).

Definition recordMutations_proto (rms : list RecordMutation)
    : result (list mutatepb.RecordMutation) :=
  collect RecordMutation_proto rms.

(** ** Schema: fields, types and mutations *)

Module schemapb.
(** [Field_Type]: the five enum values, or any other number. *)
Inductive Field_Type : Type :=
| Field_STRING
| Field_INTEGER
| Field_FLOAT
| Field_BOOLEAN
| Field_TIMESTAMP
| Field_other (n : Z).

Record Field : Type := mkField {
  Name : string; Description : string; Type_ : Field_Type;
  Repeated : bool; Required : bool; Indexed : bool; Unique : bool }.

Record Fields : Type := mkFields { Fields_ : list Field }.

Inductive MutateFieldRequest_Mutation : Type :=
| Mutation_Name (Name : string)
| Mutation_Type (Type_ : Field_Type)
| Mutation_Unique (Unique : bool)
| Mutation_Indexed (Indexed : bool)
| Mutation_Repeated (Repeated : bool)
| Mutation_Required (Required : bool).

Record MutateFieldRequest : Type :=
  mkMutateFieldRequest { FieldName : string; Mutations : list MutateFieldRequest_Mutation }.
End schemapb.

(** The conversion [string(r)] of an integer: the UTF-8 encoding of the code
    point [r], and of U+FFFD when [r] is not a valid code point. *)
Definition byte (n : Z) : ascii := ascii_of_N (Z.to_N n).

Definition string_of_rune (r : Z) : string :=
  if decide (r < 0 ∨ 1114111 < r ∨ 55296 ≤ r ≤ 57343)
  then String (byte 239) (String (byte 191) (String (byte 189) ""))
  else if decide (r < 128) then String (byte r) ""
  else if decide (r < 2048)
  then String (byte (192 + r `div` 64)) (String (byte (128 + r `mod` 64)) "")
  else if decide (r < 65536)
  then String (byte (224 + r `div` 4096))
         (String (byte (128 + (r `div` 64) `mod` 64))
            (String (byte (128 + r `mod` 64)) ""))
  else String (byte (240 + r `div` 262144))
         (String (byte (128 + (r `div` 4096) `mod` 64))
            (String (byte (128 + (r `div` 64) `mod` 64))
               (String (byte (128 + r `mod` 64)) ""))).

Module schema.
(** [type Type string] *)
Definition TypeString : string := "STRING".
Definition TypeInteger : string := "INTEGER".
Definition TypeFloat : string := "FLOAT".
Definition TypeBoolean : string := "BOOLEAN".
Definition TypeTimestamp : string := "TIMESTAMP".

Definition typeFromProto (t : schemapb.Field_Type) : string * option error :=
  match t with
  | schemapb.Field_STRING => (TypeString, None)
  | schemapb.Field_INTEGER => (TypeInteger, None)
  | schemapb.Field_FLOAT => (TypeFloat, None)
  | schemapb.Field_BOOLEAN => (TypeBoolean, None)
  | schemapb.Field_TIMESTAMP => (TypeTimestamp, None)
  | schemapb.Field_other n =>
      (TypeString, Some (errorString ("unknown type: '" +:+ string_of_rune n +:+ "'")))
  end.

Definition Type_proto (t : string) : schemapb.Field_Type * option error :=
  if decide (t = TypeString) then (schemapb.Field_STRING, None)
  else if decide (t = TypeInteger) then (schemapb.Field_INTEGER, None)
  else if decide (t = TypeFloat) then (schemapb.Field_FLOAT, None)
  else if decide (t = TypeBoolean) then (schemapb.Field_BOOLEAN, None)
  else if decide (t = TypeTimestamp) then (schemapb.Field_TIMESTAMP, None)
  else (schemapb.Field_STRING, Some (errorString ("unknown type: '" +:+ t +:+ "'"))).

Record Field : Type := mkField {
  Name : string; Description : string; Type_ : string;
  Repeated : bool; Required : bool; Indexed : bool; Unique : bool }.

Definition Field_proto (f : Field) : result schemapb.Field :=
  match Type_proto (Type_ f) with
  | (_, Some err) => Err err
  | (t, None) =>
      Ok (schemapb.mkField (Name f) (Description f) t (Repeated f) (Required f)
                           (Indexed f) (Unique f))
  end.

Definition fields_proto (fs : list Field) : result schemapb.Fields :=
  pbfs ← collect Field_proto fs; Ok (schemapb.mkFields pbfs).

(** The body of the loop of [Schema.Fields]. *)
Definition fieldFromProto (f : schemapb.Field) : result Field :=
  match typeFromProto (schemapb.Type_ f) with
  | (_, Some err) => Err err
  | (t, None) =>
      Ok (mkField (schemapb.Name f) (schemapb.Description f) t (schemapb.Repeated f)
                  (schemapb.Required f) (schemapb.Indexed f) (schemapb.Unique f))
  end.

(** A [Mutation] interface value: nil, or one of the six mutation types. *)
Inductive Mutation : Type :=
| nilMutation
| nameMutation (n : string)
| typeMutation (t : string)
| uniqueMutation (u : bool)
| indexedMutation (i : bool)
| repeatedMutation (u : bool)
| requiredMutation (u : bool).

Definition NameMutation (name : string) : Mutation := nameMutation name.
Definition TypeMutation (ty : string) : Mutation := typeMutation ty.
Definition UniqueMutation (unique : bool) : Mutation := uniqueMutation unique.
Definition IndexedMutation (indexed : bool) : Mutation := indexedMutation indexed.
Definition RepeatedMutation (repeated : bool) : Mutation := repeatedMutation repeated.
Definition RequiredMutation (required : bool) : Mutation := requiredMutation required.

Definition Mutation_proto (m : Mutation) : result schemapb.MutateFieldRequest_Mutation :=
  match m with
  | nilMutation => Panic
  | nameMutation n => Ok (schemapb.Mutation_Name n)
  | typeMutation t =>
      match Type_proto t with
      | (_, Some err) => Err err
      | (ty, None) => Ok (schemapb.Mutation_Type ty)
      end
  | uniqueMutation u => Ok (schemapb.Mutation_Unique u)
  | indexedMutation i => Ok (schemapb.Mutation_Indexed i)
  | repeatedMutation u => Ok (schemapb.Mutation_Repeated u)
  | requiredMutation u => Ok (schemapb.Mutation_Required u)
  end.

Definition mutations_proto (ms : list Mutation)
    : result (list schemapb.MutateFieldRequest_Mutation) :=
  collect Mutation_proto ms.

(** [multiErrorFromSchemaStatusProto]: as for records, but with no case for
    NotFound.  The loop state is [(out, empty)]. *)
Definition schemaStatusError (s : rpcpb.Status) : option error :=
  let c := uint32 (rpcpb.Code s) in
  if decide (c = codes.OK) then None else Some (rpcError c (rpcpb.Message s)).

Definition multiErrorFromSchemaStatusProto (status : list rpcpb.Status) : option error :=
  let '(out, empty) :=
    foldl (λ '(out, empty) s,
             let err := schemaStatusError s in
             (out ++ [err], if err is None then empty else false))
          ([], true) status in
  if empty then None else Some (MultiError out).
End schema.

(** ** The mutate and schema procedures *)

(** The remote procedures of [MutateMulti] and of the schema handle.  The
    metadata of a call is that of the context the method passes on. *)
Inductive adminE : Type → Type :=
| Store_Mutate (md : gmap string string) (req : mutatepb.MutateRequest)
    : adminE (reply resp.Statuses)
| Schema_GetFields (md : gmap string string) : adminE (reply schemapb.Fields)
| Schema_AddFields (md : gmap string string) (req : schemapb.Fields)
    : adminE (reply resp.Statuses)
| Schema_MutateField (md : gmap string string) (req : schemapb.MutateFieldRequest)
    : adminE (reply resp.Statuses).

(** A call tree over these procedures (as [rpc] over [rpcE]). *)
Inductive admin (A : Type) : Type :=
| Done (a : A)
| Crash
| Remote {X : Type} (e : adminE X) (k : X → admin A).
Arguments Done {A} a.
Arguments Crash {A}.
Arguments Remote {A X} e k.

Fixpoint admin_bind {A B : Type} (m : admin A) (f : A → admin B) : admin B :=
  match m with
  | Done a => f a
  | Crash => Crash
  | Remote e k => Remote e (λ x, admin_bind (k x) f)
  end.

Definition adminHandler : Type := ∀ X : Type, adminE X → X.

Fixpoint adminRun {A : Type} (h : adminHandler) (m : admin A) : option A :=
  match m with
  | Done a => Some a
  | Crash => None
  | Remote e k => adminRun h (k (h _ e))
  end.

Fixpoint adminCalls {A : Type} (h : adminHandler) (m : admin A)
    : list { X : Type & adminE X } :=
  match m with
  | Done _ | Crash => []
  | Remote e k => existT _ e :: adminCalls h (k (h _ e))
  end.

Definition adminTry {A R : Type} (r : result A) (onerr : error → R) (k : A → admin R)
    : admin R :=
  match r with
  | Ok a => k a
  | Err err => Done (onerr err)
  | Panic => Crash
  end.

Definition adminCall {X R : Type} (e : adminE (reply X)) (onerr : error → R)
    (k : X → admin R) : admin R :=
  Remote e (λ r, match r with
                 | Reply x => k x
                 | Fault err => Done (onerr err)
                 end).

Definition MutateMulti (c : Client) (rms : list RecordMutation) : admin (option error) :=
  adminTry (recordMutations_proto rms) Some (λ rmspb,
    adminCall (Store_Mutate (newContext c) (mutatepb.mkMutateRequest rmspb)) Some
      (λ resp, Done (multiErrorFromRecordStatusProto (resp.Status resp)))).

Definition Mutate (c : Client) (k : option Key) (m : list FieldMutation)
    : admin (option error) :=
  admin_bind (MutateMulti c [mkRecordMutation k m]) (λ err,
    match err with
    | Some (MultiError me) =>
        match me with
        | me0 :: _ => Done me0
        | [] => Crash
        end
    | _ => Done err
    end).

(** [Schema.Fields] *)
Definition Schema_Fields (c : Client) : admin (list schema.Field * option error) :=
  adminCall (Schema_GetFields (newContext c)) (λ err, ([], Some err)) (λ fields,
    adminTry (collect schema.fieldFromProto (schemapb.Fields_ fields))
             (λ err, ([], Some err)) (λ out, Done (out, None))).

(** [Schema.Add] *)
Definition Schema_Add (c : Client) (fs : list schema.Field) : admin (option error) :=
  adminTry (schema.fields_proto fs) Some (λ pbfs,
    adminCall (Schema_AddFields (newContext c) pbfs) Some
      (λ resp, Done (schema.multiErrorFromSchemaStatusProto (resp.Status resp)))).

(** [Schema.MutateField]; the call is made with the caller's context [ctx],
    given here by its outgoing metadata. *)
Definition Schema_MutateField_ (c : Client) (ctx : gmap string string) (name : string)
    (muts : list schema.Mutation) : admin (option error) :=
  adminTry (schema.mutations_proto muts) Some (λ pbMuts,
    adminCall (Schema_MutateField ctx (schemapb.mkMutateFieldRequest name pbMuts)) Some
      (λ resp, Done (schema.multiErrorFromSchemaStatusProto (resp.Status resp)))).

(** ** Aggregate responses *)

Module aggpb.
Record AggregateResponse_Buckets_Bucket : Type := mkBucket { Name : string; Count : Z }.

(** [AggregateResponse]: a oneof of counts, buckets and a metric, or unset.
    The messages inside a set case are present, as the decoder builds them. *)
Inductive AggregateResponse : Type :=
| AggregateResponse_Count_ (Counts : gmap string Z)
| AggregateResponse_Buckets_ (Buckets : gmap string AggregateResponse_Buckets_Bucket)
| AggregateResponse_Metric_ (Value : float)
| AggregateResponse_unset.
End aggpb.

Record BucketResponse : Type := mkBucketResponse { BucketResponseName : string; Count : Z }.

(** What [processAggregatesResponse] stores in its [map[string]interface{}]:
    a [CountResponse], a [BucketsResponse], or the [float64] of a metric. *)
Inductive AggregateValue : Type :=
| CountResponse (counts : gmap string Z)
| BucketsResponse (buckets : gmap string BucketResponse)
| MetricValue (v : float).

Definition processAggregatesResponse (pbResp : gmap string aggpb.AggregateResponse)
    : gmap string AggregateValue :=
  map_fold (λ k v (out : gmap string AggregateValue),
              match v with
              | aggpb.AggregateResponse_Count_ Counts =>
                  let counts :=
                    map_fold (λ ck cv (counts : gmap string Z), <[ck := cv]> counts)
                             ∅ Counts in
                  <[k := CountResponse counts]> out
              | aggpb.AggregateResponse_Buckets_ Buckets =>
                  let buckets :=
                    map_fold (λ bk bv (buckets : gmap string BucketResponse),
                                <[bk := mkBucketResponse (aggpb.Name bv) (aggpb.Count bv)]>
                                  buckets)
                             ∅ Buckets in
                  <[k := BucketsResponse buckets]> out
              | aggpb.AggregateResponse_Metric_ Value => <[k := MetricValue Value]> out
              | aggpb.AggregateResponse_unset => out
              end)
           ∅ pbResp.

(** * Properties *)

(** ** General facts about the marshalling loops *)

Section Collect.
Context {A B : Type} (f : A → result B).

Lemma collect_cons x xs :
  collect f (x :: xs) =
  match f x with
  | Ok y => match collect f xs with
            | Ok ys => Ok (y :: ys)
            | Err e => Err e
            | Panic => Panic
            end
  | Err e => Err e
  | Panic => Panic
  end.
Proof. reflexivity. Qed.

Lemma collect_length xs ys : collect f xs = Ok ys → length ys = length xs.
Proof.
  revert ys. induction xs as [|x xs IH]; intros ys H.
  - injection H as <-. reflexivity.
  - rewrite collect_cons in H. destruct (f x); try discriminate.
    destruct (collect f xs) as [ys'| |]; try discriminate.
    injection H as <-. simpl. f_equal. apply IH. reflexivity.
Qed.

Lemma collect_lookup xs ys i x :
  collect f xs = Ok ys → xs !! i = Some x → ∃ y, ys !! i = Some y ∧ f x = Ok y.
Proof.
  revert ys i. induction xs as [|x0 xs IH]; intros ys i H Hi; [done|].
  rewrite collect_cons in H. destruct (f x0) as [y0| |] eqn:E0; try discriminate.
  destruct (collect f xs) as [ys'| |]; try discriminate.
  injection H as <-. destruct i as [|i]; simpl in *.
  - injection Hi as <-. eauto.
  - eapply IH; eauto.
Qed.

Lemma collect_Ok xs :
  Forall (λ x, ∃ y, f x = Ok y) xs → ∃ ys, collect f xs = Ok ys.
Proof.
  induction 1 as [|x xs [y Hy] _ [ys Hys]]; [by eexists|].
  exists (y :: ys). by rewrite collect_cons, Hy, Hys.
Qed.

Lemma collect_Err xs e :
  collect f xs = Err e → ∃ x, x ∈ xs ∧ f x = Err e.
Proof.
  induction xs as [|x xs IH]; [done|]. rewrite collect_cons.
  destruct (f x) as [y|e'|] eqn:E; try discriminate.
  - destruct (collect f xs); try discriminate. intros [= <-].
    destruct IH as (x' & ? & ?); [done|]. exists x'. split; [by right|done].
  - intros [= <-]. exists x. split; [by left|done].
Qed.

Lemma collect_Panic xs :
  collect f xs = Panic → ∃ x, x ∈ xs ∧ f x = Panic.
Proof.
  induction xs as [|x xs IH]; [done|]. rewrite collect_cons.
  destruct (f x) as [y|e'|] eqn:E; try discriminate.
  - destruct (collect f xs); try discriminate. intros _.
    destruct IH as (x' & ? & ?); [done|]. exists x'. split; [by right|done].
  - intros _. exists x. split; [by left|done].
Qed.
End Collect.

(** ** NewRecord *)

Lemma NewRecord_copy (values : gmap string iface) :
  map_fold (λ k v (d : gmap string iface), <[k := v]> d) ∅ values = values.
Proof.
  apply (map_fold_weak_ind (λ r m, r = m)); [done|].
  intros i x m r _ ->. done.
Qed.

(** C10. [NewRecord body values] maps the reserved field ["_body"] to
    [body], whatever [values] held there, and maps every other key to the
    value it has in [values]. *)
Theorem NewRecord_body_and_values (body : string) (values : gmap string iface) :
  NewRecord body values !! BodyField = Some (Scalar (StringV body)) ∧
  ∀ k : string, k ≠ BodyField → NewRecord body values !! k = values !! k.
Proof.
  unfold NewRecord. rewrite NewRecord_copy. split.
  - apply lookup_insert_eq.
  - intros k Hk. by rewrite lookup_insert_ne.
Qed.

Lemma NewRecord_body_and_values_witness :
  NewRecord "hello" (<["_body" := Nil]> (<["n" := Scalar (IntV int 7)]> ∅)) !! "_body"
    = Some (Scalar (StringV "hello")) ∧
  NewRecord "hello" (<["_body" := Nil]> (<["n" := Scalar (IntV int 7)]> ∅)) !! "n"
    = (<["_body" := Nil]> (<["n" := Scalar (IntV int 7)]> ∅) : gmap string iface) !! "n".
Proof.
  split.
  - apply (NewRecord_body_and_values "hello").
  - apply (NewRecord_body_and_values "hello"). discriminate.
Defined.

(** ** Values: encoding and decoding *)

(** The value shapes the specification calls supported: the scalars, a
    [time.Time], and the slices [[]string], [[]int] and [[]int64]. *)
Definition supported (x : iface) : bool :=
  match x with
  | Scalar _ | TimeV _ | Strings _ | Ints _ | Int64s _ => true
  | Nil | Other _ => false
  end.

(** The string-typed representation of a supported value, in the words of
    the specification: a scalar is its formatted string, a time its Unix
    seconds, a list the ordered list of its formatted elements. *)
Definition stringTyped (x : iface) : option iface :=
  match x with
  | Scalar s => Some (Scalar (StringV (fmt.v s)))
  | TimeV t => Some (Scalar (StringV (pretty (Unix t))))
  | Strings vs => Some (Strings vs)
  | Ints xs | Int64s xs => Some (Strings (pretty <$> xs))
  | Nil | Other _ => None
  end.

(** C4. Encoding a supported value succeeds and decoding the wire value
    yields its string-typed representation; encoding any other value
    returns the error "unsupported value: T" naming the value's type. *)
Theorem encode_decode_string_typed (x : iface) :
  (supported x = true →
   ∃ w y, pbValueFromInterface x = Ok w ∧ stringTyped x = Some y ∧
          valueFromProto (Some w) = Ok y) ∧
  (supported x = false →
   pbValueFromInterface x = Err (errorString ("unsupported value: " +:+ fmt.T x))).
Proof.
  split; intros H; destruct x; try discriminate H; simpl; eauto.
Qed.

Lemma encode_decode_string_typed_witness :
  (∃ w y, pbValueFromInterface (Ints [3; -4]) = Ok w ∧
          stringTyped (Ints [3; -4]) = Some y ∧ valueFromProto (Some w) = Ok y) ∧
  pbValueFromInterface (Other "[]float64")
    = Err (errorString "unsupported value: []float64").
Proof.
  split.
  - apply (encode_decode_string_typed (Ints [3; -4])). reflexivity.
  - apply (encode_decode_string_typed (Other "[]float64")). reflexivity.
Defined.

(** ** Field filters *)

(** The bytes [FieldFilter] trims from the right of [fieldOp]. *)
Definition operatorBytes : string := " <>=!~^$".

(** The operators [fieldFilter.proto] knows. *)
Definition fieldOperators : list string :=
  ["="; "!="; ">"; ">="; "<"; "<="; "~"; "!~"; "^"; "$"].

(** Every byte of [s] belongs to [cutset]. *)
Fixpoint allIn (cutset s : string) : bool :=
  match s with
  | EmptyString => true
  | String c rest => strings.contains_byte cutset c && allIn cutset rest
  end.

Lemma append_empty (s : string) : "" +:+ s = s.
Proof. reflexivity. Qed.

Lemma append_String (c : ascii) (s t : string) : String c s +:+ t = String c (s +:+ t).
Proof. reflexivity. Qed.

Lemma TrimRight_allIn cutset s : allIn cutset s = true → strings.TrimRight s cutset = "".
Proof.
  induction s as [|c s IH]; [done|]. simpl. intros [Hc Hs]%andb_true_iff.
  by rewrite IH, Hc.
Qed.

Lemma TrimRight_app cutset field suffix :
  allIn cutset suffix = true →
  strings.TrimRight (field +:+ suffix) cutset = strings.TrimRight field cutset.
Proof.
  intros Hs. induction field as [|c field IH]; simpl.
  - by rewrite TrimRight_allIn.
  - by rewrite IH.
Qed.

Lemma from_app field suffix : strings.from (String.length field) (field +:+ suffix) = suffix.
Proof. induction field; simpl; auto. Qed.

Lemma TrimRight_idemp cutset s :
  strings.TrimRight (strings.TrimRight s cutset) cutset = strings.TrimRight s cutset.
Proof.
  induction s as [|c s IH]; [done|]. simpl.
  destruct (strings.TrimRight s cutset) as [|d t] eqn:E.
  - destruct (strings.contains_byte cutset c) eqn:Ec; simpl; [done|by rewrite Ec].
  - simpl in *. by rewrite IH.
Qed.

(** [fieldOp] is the trimmed field followed by a run of operator bytes. *)
Lemma TrimRight_split cutset s :
  ∃ suffix, s = strings.TrimRight s cutset +:+ suffix ∧ allIn cutset suffix = true.
Proof.
  induction s as [|c s (suffix & Hs & Hall)].
  - by exists "".
  - simpl. destruct (strings.TrimRight s cutset) as [|d t] eqn:E.
    + destruct (strings.contains_byte cutset c) eqn:Ec.
      * exists (String c s). split; [done|]. simpl. rewrite Ec.
        rewrite append_empty in Hs. by subst s.
      * exists suffix. split; [|done].
        rewrite append_String, append_empty. rewrite append_empty in Hs. congruence.
    + exists suffix. split; [|done]. rewrite append_String. congruence.
Qed.

Lemma FieldFilter_parts field suffix value :
  strings.TrimRight field operatorBytes = field →
  allIn operatorBytes suffix = true →
  FieldFilter (field +:+ suffix) value = fieldFilter (strings.TrimSpace suffix) field value.
Proof.
  intros Hf Hs. unfold FieldFilter. fold operatorBytes.
  by rewrite (TrimRight_app _ _ _ Hs), Hf, from_app.
Qed.

Lemma fieldFilterOperator_None op :
  op ∉ fieldOperators → fieldFilterOperator op = None.
Proof.
  intros H. unfold fieldFilterOperator.
  repeat (case_decide as E;
          [exfalso; apply H; rewrite E; unfold fieldOperators; set_solver|clear E]).
  reflexivity.
Qed.

Lemma fieldFilterOperator_Some op :
  op ∈ fieldOperators → ∃ pbop, fieldFilterOperator op = Some pbop.
Proof.
  unfold fieldOperators. rewrite !elem_of_cons, elem_of_nil.
  intros H. destruct_or!; subst; try done; eexists; reflexivity.
Qed.

(** C3. [FieldFilter("count >=", 10)] serializes to a field filter on
    "count" with operator GREATER_THAN_OR_EQUAL_TO and the single value
    "10".  Every [fieldOp] is a field followed by a run of the bytes
    [ <>=!~^$]; when that run, with its surrounding spaces removed, is not
    one of the ten operators, serialization returns the error "invalid field
    filter operator: ..." naming it. *)
Theorem FieldFilter_operator :
  Filter_proto (FieldFilter "count >=" (Scalar (IntV int 10)))
    = Ok (querypb.Filter_Field_ "count" querypb.Filter_Field_GREATER_THAN_OR_EQUAL_TO
            (enginepb.Value_Single "10")) ∧
  (∀ fieldOp : string, ∃ field suffix,
      fieldOp = field +:+ suffix ∧
      strings.TrimRight field operatorBytes = field ∧
      allIn operatorBytes suffix = true) ∧
  (∀ (field suffix : string) (value : iface),
      strings.TrimRight field operatorBytes = field →
      allIn operatorBytes suffix = true →
      strings.TrimSpace suffix ∉ fieldOperators →
      Filter_proto (FieldFilter (field +:+ suffix) value)
        = Err (errorString ("invalid field filter operator: "
                            +:+ strings.TrimSpace suffix))).
Proof.
  split; [reflexivity|]. split.
  - intros fieldOp. destruct (TrimRight_split operatorBytes fieldOp) as (suffix & Hs & Hall).
    exists (strings.TrimRight fieldOp operatorBytes), suffix.
    split; [done|]. split; [apply TrimRight_idemp|done].
  - intros field suffix value Hf Hs Hop.
    rewrite (FieldFilter_parts _ _ _ Hf Hs). simpl.
    by rewrite (fieldFilterOperator_None _ Hop).
Qed.

Lemma FieldFilter_operator_witness :
  Filter_proto (FieldFilter ("count" +:+ " =>") (Scalar (IntV int 10)))
    = Err (errorString "invalid field filter operator: =>").
Proof.
  apply (proj2 (proj2 FieldFilter_operator) "count" " =>" (Scalar (IntV int 10))).
  - reflexivity.
  - reflexivity.
  - apply (bool_decide_unpack (strings.TrimSpace " =>" ∉ fieldOperators)).
    vm_compute. exact I.
Defined.

(** ** MultiError.Error *)

(** The loop of [MultiError.Error], with state [(n, msg)]. *)
Fixpoint MultiError_loop (me : list (option error)) (n : nat) (msg : string)
    : nat * string :=
  match me with
  | [] => (n, msg)
  | None :: rest => MultiError_loop rest n msg
  | Some e :: rest =>
      MultiError_loop rest (S n) (match n with O => Error e | _ => msg end)
  end.

Lemma Error_MultiError me :
  Error (MultiError me) =
  let '(n, msg) := MultiError_loop me O "" in
  match n with
  | 0%nat => "(0 errors)"
  | 1%nat => msg
  | 2%nat => msg +:+ " (and 1 other error)"
  | _ => msg +:+ " (and " +:+ pretty n +:+ " other errors)"
  end.
Proof. reflexivity. Qed.

(** The non-nil entries of a [MultiError], in order. *)
Definition nonNil (me : list (option error)) : list error := omap id me.

Lemma MultiError_loop_count me n msg :
  (MultiError_loop me n msg).1 = (n + length (nonNil me))%nat.
Proof.
  revert n msg. induction me as [|[e|] me IH]; intros n msg; simpl.
  - lia.
  - rewrite IH. lia.
  - apply IH.
Qed.

Lemma MultiError_loop_msg_S me n msg :
  (MultiError_loop me (S n) msg).2 = msg.
Proof.
  revert n msg. induction me as [|[e|] me IH]; intros n msg; simpl; auto.
Qed.

Lemma MultiError_loop_msg_O me :
  (MultiError_loop me O "").2 =
  match nonNil me with
  | [] => ""
  | e :: _ => Error e
  end.
Proof.
  induction me as [|[e|] me IH]; simpl; auto.
  apply MultiError_loop_msg_S.
Qed.

(** What [MultiError.Error] prints, by the number of non-nil entries: the
    first non-nil error's message, followed from three entries on by the
    count of all the non-nil entries. *)
Lemma MultiError_Error_by_count me :
  Error (MultiError me) =
  match nonNil me with
  | [] => "(0 errors)"
  | [e] => Error e
  | [e; _] => Error e +:+ " (and 1 other error)"
  | e :: rest =>
      Error e +:+ " (and " +:+ pretty (length (e :: rest)) +:+ " other errors)"
  end.
Proof.
  rewrite Error_MultiError.
  pose proof (MultiError_loop_count me O "") as Hn.
  pose proof (MultiError_loop_msg_O me) as Hm.
  destruct (MultiError_loop me O "") as [n msg]. simpl in Hn, Hm. subst n msg.
  destruct (nonNil me) as [|e1 [|e2 [|e3 rest]]]; reflexivity.
Qed.

(** C8, at a [MultiError] of three non-nil errors: the code prints "(and 3
    other errors)", the count of all non-nil errors, where the claim has the
    count minus one, "(and 2 other errors)". *)
Theorem MultiError_Error_three :
  Error (MultiError [Some ErrNoSuchRecord; None; Some (errorString "b"); Some (errorString "c")])
    = "sajari: no such record (and 3 other errors)" ∧
  Error (MultiError [Some ErrNoSuchRecord; None; Some (errorString "b"); Some (errorString "c")])
    ≠ "sajari: no such record (and 2 other errors)".
Proof. split; [reflexivity|discriminate]. Qed.

(** ** Statuses *)

Lemma multiErrorFromRecordStatusProto_fold status out empty :
  foldl (λ '(out, empty) s,
           let err := recordStatusError s in
           (out ++ [err], if err is None then empty else false))
        (out, empty) status
  = (out ++ (recordStatusError <$> status),
     empty && forallb (λ s, bool_decide (recordStatusError s = None)) status).
Proof.
  revert out empty. induction status as [|s status IH]; intros out empty; simpl.
  - by rewrite app_nil_r, andb_true_r.
  - rewrite IH, <- app_assoc. simpl. f_equal.
    destruct (recordStatusError s) as [e|]; simpl.
    + by rewrite andb_false_r.
    + done.
Qed.

(** [multiErrorFromRecordStatusProto] without its loop. *)
Lemma multiErrorFromRecordStatusProto_map status :
  multiErrorFromRecordStatusProto status =
  if forallb (λ s, bool_decide (recordStatusError s = None)) status
  then None else Some (MultiError (recordStatusError <$> status)).
Proof.
  unfold multiErrorFromRecordStatusProto.
  by rewrite multiErrorFromRecordStatusProto_fold.
Qed.

(** The statuses are all OK. *)
Definition allOK (status : list rpcpb.Status) : Prop :=
  ∀ j s, status !! j = Some s → rpcpb.Code s = codes.OK.

(** Exactly the status at index [i] is NotFound, the others are OK. *)
Definition oneNotFound (i : nat) (status : list rpcpb.Status) : Prop :=
  (∃ s, status !! i = Some s ∧ rpcpb.Code s = codes.NotFound) ∧
  ∀ j s, j ≠ i → status !! j = Some s → rpcpb.Code s = codes.OK.

Lemma recordStatusError_OK s : rpcpb.Code s = codes.OK → recordStatusError s = None.
Proof. unfold recordStatusError. by intros ->. Qed.

Lemma recordStatusError_NotFound s :
  rpcpb.Code s = codes.NotFound → recordStatusError s = Some ErrNoSuchRecord.
Proof. unfold recordStatusError. by intros ->. Qed.

Lemma multiErrorFromRecordStatusProto_allOK status :
  allOK status → multiErrorFromRecordStatusProto status = None.
Proof.
  intros H. rewrite multiErrorFromRecordStatusProto_map.
  assert (forallb (λ s, bool_decide (recordStatusError s = None)) status = true) as ->; [|done].
  apply forallb_forall. intros s [j Hj]%list_elem_of_In%list_elem_of_lookup.
  apply bool_decide_eq_true_2, recordStatusError_OK. eauto.
Qed.

Lemma multiErrorFromRecordStatusProto_oneNotFound i status :
  oneNotFound i status →
  ∃ me, multiErrorFromRecordStatusProto status = Some (MultiError me) ∧
        length me = length status ∧
        me !! i = Some (Some ErrNoSuchRecord) ∧
        ∀ j, j ≠ i → (j < length status)%nat → me !! j = Some None.
Proof.
  intros [(s & Hs & Hc) Hother]. exists (recordStatusError <$> status).
  rewrite multiErrorFromRecordStatusProto_map.
  assert (forallb (λ s, bool_decide (recordStatusError s = None)) status = false) as ->.
  { apply not_true_is_false. intros Hall. rewrite forallb_forall in Hall.
    specialize (Hall s). rewrite (recordStatusError_NotFound _ Hc) in Hall.
    apply list_elem_of_lookup_2, list_elem_of_In in Hs.
    by apply Hall, bool_decide_eq_true_1 in Hs. }
  split; [done|]. split; [by rewrite length_fmap|]. split.
  - by rewrite list_lookup_fmap, Hs, <- (recordStatusError_NotFound _ Hc).
  - intros j Hj Hlt. destruct (lookup_lt_is_Some_2 status j Hlt) as [sj Hsj].
    rewrite list_lookup_fmap, Hsj. simpl. f_equal.
    apply recordStatusError_OK. eauto.
Qed.

(** The loop of [ExistsMulti] without its accumulator. *)
Definition existsResult (s : rpcpb.Status) : option bool :=
  let c := uint32 (rpcpb.Code s) in
  if decide (c = codes.OK) then Some true
  else if decide (c = codes.NotFound) then Some false else None.

Definition existsError (s : rpcpb.Status) : option error :=
  let c := uint32 (rpcpb.Code s) in
  if decide (c = codes.OK) then None
  else if decide (c = codes.NotFound) then None
  else Some (rpcError c (rpcpb.Message s)).

Lemma existsStep_eq out errs empty s :
  existsStep (out, errs, empty) s =
  (out ++ omap existsResult [s], errs ++ [existsError s],
   empty && bool_decide (existsError s = None)).
Proof.
  unfold existsStep, existsResult, existsError. simpl.
  repeat case_decide; simpl; rewrite ?app_nil_r, ?andb_true_r, ?andb_false_r; done.
Qed.

Lemma existsStatuses_fold status out errs empty :
  foldl existsStep (out, errs, empty) status
  = (out ++ omap existsResult status, errs ++ (existsError <$> status),
     empty && forallb (λ s, bool_decide (existsError s = None)) status).
Proof.
  revert out errs empty.
  induction status as [|s status IH]; intros out errs empty.
  - simpl. by rewrite !app_nil_r, andb_true_r.
  - cbn [foldl]. rewrite existsStep_eq, IH, <- !app_assoc, <- andb_assoc.
    change (s :: status) with ([s] ++ status). by rewrite omap_app.
Qed.

Lemma existsStatuses_map status :
  existsStatuses status =
  (omap existsResult status, existsError <$> status,
   forallb (λ s, bool_decide (existsError s = None)) status).
Proof. unfold existsStatuses. by rewrite existsStatuses_fold. Qed.

(** ** Running the operations *)

Lemma run_bind {A B : Type} (h : handler) (m : rpc A) (f : A → rpc B) :
  run h (m ≫= f) = run h m ≫= (λ a, run h (f a)).
Proof.
  unfold mbind at 1, rpc_mbind.
  induction m as [a| |X e k IH]; simpl; auto.
Qed.

Lemma run_try {A R : Type} (h : handler) (r : result A) (onerr : error → R)
    (k : A → rpc R) :
  run h (try r onerr k) =
  match r with
  | Ok a => run h (k a)
  | Err err => Some (onerr err)
  | Panic => None
  end.
Proof. by destruct r. Qed.

Lemma run_call {X R : Type} (h : handler) (e : rpcE (reply X)) (onerr : error → R)
    (k : X → rpc R) :
  run h (call e onerr k) =
  match h _ e with
  | Reply x => run h (k x)
  | Fault err => Some (onerr err)
  end.
Proof. simpl. by destruct (h _ e). Qed.

(** The [Store.Add] request of [AddMulti]. *)
Definition addRequest (pbrs : list pb.Record_) (ts : list Transform) : pb.Records :=
  pb.mkRecords pbrs
    (pb.mkTransform <$> match ts with [] => DefaultAddTransforms | _ => ts end).

Lemma run_AddMulti (h : handler) c rs ts pbrs resp keys :
  records_proto rs = Ok pbrs →
  h _ (Store_Add (newContext c) (addRequest pbrs ts)) = Reply resp →
  pbKeys_keys (resp.AddKeys resp) = Ok keys →
  run h (AddMulti c rs ts)
    = Some (keys, multiErrorFromRecordStatusProto (resp.AddStatus resp)).
Proof.
  intros Hrs Hh Hkeys. unfold AddMulti. rewrite run_try, Hrs, run_call.
  assert (pb.mkRecords pbrs
            (map pb.mkTransform match ts with [] => ts ++ DefaultAddTransforms | _ => ts end)
          = addRequest pbrs ts) as -> by (by destruct ts).
  by rewrite Hh, run_try, Hkeys.
Qed.

Lemma run_GetMulti (h : handler) c ks pbks resp docs :
  keys_proto ks = Ok pbks →
  h _ (Store_Get (newContext c) pbks) = Reply resp →
  pbRecords_records (resp.Records resp) = Ok docs →
  run h (GetMulti c ks)
    = Some (docs, multiErrorFromRecordStatusProto (resp.GetStatus resp)).
Proof.
  intros Hks Hh Hdocs. unfold GetMulti.
  by rewrite run_try, Hks, run_call, Hh, run_try, Hdocs.
Qed.

Lemma run_ExistsMulti (h : handler) c ks pbks resp :
  keys_proto ks = Ok pbks →
  h _ (Store_Exists (newContext c) pbks) = Reply resp →
  run h (ExistsMulti c ks) =
  Some (if forallb (λ s, bool_decide (existsError s = None)) (resp.Status resp)
        then (omap existsResult (resp.Status resp), None)
        else ([], Some (MultiError (existsError <$> resp.Status resp)))).
Proof.
  intros Hks Hh. unfold ExistsMulti.
  rewrite run_try, Hks, run_call, Hh, existsStatuses_map.
  by destruct (forallb _ _).
Qed.

(** ** Batch operations and per-item statuses *)

(** A service that gives the same reply to every call of a procedure. *)
Definition service (add : reply resp.Add) (get : reply resp.Get)
    (exists_ delete : reply resp.Statuses) (analyse : reply resp.Analyse)
    (increment : reply resp.Statuses) : handler :=
  λ X e,
    match e in rpcE X return X with
    | Store_Add _ _ => add
    | Store_Get _ _ => get
    | Store_Exists _ _ => exists_
    | Store_Delete _ _ => delete
    | Query_Analyse _ _ => analyse
    | Score_Increment _ _ => increment
    end.

(** The outcome the specification asks of a batch of [N] items whose item
    [i] was not found: [N] results and a [MultiError] of length [N] whose
    only non-nil entry is [ErrNoSuchRecord], at index [i]. *)
Definition reportsNotFoundAt {A : Type} (N i : nat)
    (r : option (list A * option error)) : Prop :=
  ∃ res me,
    r = Some (res, Some (MultiError me)) ∧ length res = N ∧ length me = N ∧
    me !! i = Some (Some ErrNoSuchRecord) ∧
    ∀ j, j ≠ i → (j < N)%nat → me !! j = Some None.

(** [N] results and a nil error. *)
Definition returnsAll {A : Type} (N : nat) (r : option (list A * option error)) : Prop :=
  ∃ res, r = Some (res, None) ∧ length res = N.

Lemma existsError_found s :
  rpcpb.Code s = codes.OK ∨ rpcpb.Code s = codes.NotFound →
  existsError s = None ∧
  existsResult s = Some (bool_decide (rpcpb.Code s = codes.OK)).
Proof. unfold existsError, existsResult. by intros [-> | ->]. Qed.

Lemma exists_found status :
  Forall (λ s, rpcpb.Code s = codes.OK ∨ rpcpb.Code s = codes.NotFound) status →
  forallb (λ s, bool_decide (existsError s = None)) status = true ∧
  omap existsResult status = (λ s, bool_decide (rpcpb.Code s = codes.OK)) <$> status.
Proof.
  induction 1 as [|s status Hs _ [IH1 IH2]]; [done|].
  destruct (existsError_found s Hs) as [He Hr].
  cbn [forallb omap list_omap fmap list_fmap].
  rewrite He, Hr, IH1. split; [done|]. f_equal. exact IH2.
Qed.

Lemma oneNotFound_found i status :
  oneNotFound i status →
  Forall (λ s, rpcpb.Code s = codes.OK ∨ rpcpb.Code s = codes.NotFound) status.
Proof.
  intros [(s & Hs & Hc) Hother]. apply Forall_lookup. intros j sj Hj.
  destruct (decide (j = i)) as [->|Hne].
  - right. congruence.
  - left. eauto.
Qed.

(** C1, as the code has it.  When the remote call succeeds with [N]
    decodable results and [N] statuses of which exactly the one at index [i]
    is NotFound and the others are OK, [GetMulti] and [AddMulti] return the
    [N] results together with a [MultiError] of length [N] whose only
    non-nil entry is [ErrNoSuchRecord] at index [i], and a nil error when
    every status is OK.  [ExistsMulti] instead reports the key that was not
    found as [false] at index [i] of its result, with a nil error. *)
Theorem Multi_one_NotFound (h : handler) (c : Client) (i : nat) :
  (∀ ks pbks resp docs,
     keys_proto ks = Ok pbks →
     h _ (Store_Get (newContext c) pbks) = Reply resp →
     pbRecords_records (resp.Records resp) = Ok docs →
     length (resp.Records resp) = length ks →
     length (resp.GetStatus resp) = length ks →
     (oneNotFound i (resp.GetStatus resp) →
      reportsNotFoundAt (length ks) i (run h (GetMulti c ks))) ∧
     (allOK (resp.GetStatus resp) → returnsAll (length ks) (run h (GetMulti c ks)))) ∧
  (∀ rs ts pbrs resp keys,
     records_proto rs = Ok pbrs →
     h _ (Store_Add (newContext c) (addRequest pbrs ts)) = Reply resp →
     pbKeys_keys (resp.AddKeys resp) = Ok keys →
     length (resp.AddKeys resp) = length rs →
     length (resp.AddStatus resp) = length rs →
     (oneNotFound i (resp.AddStatus resp) →
      reportsNotFoundAt (length rs) i (run h (AddMulti c rs ts))) ∧
     (allOK (resp.AddStatus resp) → returnsAll (length rs) (run h (AddMulti c rs ts)))) ∧
  (∀ ks pbks resp,
     keys_proto ks = Ok pbks →
     h _ (Store_Exists (newContext c) pbks) = Reply resp →
     length (resp.Status resp) = length ks →
     oneNotFound i (resp.Status resp) →
     ∃ out, run h (ExistsMulti c ks) = Some (out, None) ∧
            length out = length ks ∧ out !! i = Some false ∧
            ∀ j, j ≠ i → (j < length ks)%nat → out !! j = Some true).
Proof.
  split; [|split].
  - intros ks pbks resp docs Hks Hh Hdocs Hlen Hslen.
    rewrite (run_GetMulti _ _ _ _ _ _ Hks Hh Hdocs).
    apply collect_length in Hdocs. split.
    + intros (me & -> & Hme & Hi & Hj)%multiErrorFromRecordStatusProto_oneNotFound.
      exists docs, me. rewrite Hslen in Hme, Hj. repeat split; auto; congruence.
    + intros ->%multiErrorFromRecordStatusProto_allOK.
      exists docs. split; [done|congruence].
  - intros rs ts pbrs resp keys Hrs Hh Hkeys Hlen Hslen.
    rewrite (run_AddMulti _ _ _ _ _ _ _ Hrs Hh Hkeys).
    apply collect_length in Hkeys. split.
    + intros (me & -> & Hme & Hi & Hj)%multiErrorFromRecordStatusProto_oneNotFound.
      exists keys, me. rewrite Hslen in Hme, Hj. repeat split; auto; congruence.
    + intros ->%multiErrorFromRecordStatusProto_allOK.
      exists keys. split; [done|congruence].
  - intros ks pbks resp Hks Hh Hslen Hone.
    rewrite (run_ExistsMulti _ _ _ _ _ Hks Hh).
    destruct (exists_found _ (oneNotFound_found _ _ Hone)) as [-> ->].
    eexists. split; [done|]. rewrite length_fmap. split; [done|].
    destruct Hone as [(s & Hs & Hc) Hother]. split.
    + rewrite list_lookup_fmap, Hs. simpl. by rewrite Hc.
    + intros j Hj Hlt. rewrite <- Hslen in Hlt.
      destruct (lookup_lt_is_Some_2 _ _ Hlt) as [sj Hsj].
      rewrite list_lookup_fmap, Hsj. simpl. f_equal.
      apply bool_decide_eq_true_2. eauto.
Qed.

(** Example data: a client, three keys, and the statuses of a reply. *)
Definition exampleClient : Client := mkClient "project" "collection".

Definition exampleKeys : list (option Key) :=
  [NewKey "id" (Scalar (StringV "a")); NewKey "id" (Scalar (IntV int 2));
   NewKey "id" (Scalar (StringV "c"))].

Definition statusOK : rpcpb.Status := rpcpb.mkStatus 0 "".
Definition statusNotFound : rpcpb.Status := rpcpb.mkStatus 5 "not found".
Definition statusInternal : rpcpb.Status := rpcpb.mkStatus 13 "boom".

Definition exampleRecord : pb.Record_ :=
  pb.mkRecord (<["title" := enginepb.Value_Single "t"]> ∅).

(** A service whose second record is not found. *)
Definition secondNotFound : handler :=
  let status := [statusOK; statusNotFound; statusOK] in
  service (Reply (resp.mkAdd [] status))
          (Reply (resp.mkGet [exampleRecord; pb.mkRecord ∅; exampleRecord] status))
          (Reply (resp.mkStatuses status)) (Reply (resp.mkStatuses status))
          (Reply (resp.mkAnalyse [] status)) (Reply (resp.mkStatuses status)).

Lemma oneNotFound_second : oneNotFound 1 [statusOK; statusNotFound; statusOK].
Proof.
  split.
  - exists statusNotFound. by split.
  - intros [|[|[|j]]] s Hj Hs; try done; by injection Hs as <-.
Qed.

Lemma Multi_one_NotFound_witness :
  reportsNotFoundAt 3 1 (run secondNotFound (GetMulti exampleClient exampleKeys)).
Proof.
  eapply (proj1 (Multi_one_NotFound secondNotFound exampleClient 1) exampleKeys).
  - vm_compute. reflexivity.
  - reflexivity.
  - vm_compute. reflexivity.
  - reflexivity.
  - reflexivity.
  - exact oneNotFound_second.
Defined.

(** C1 as stated fails for [ExistsMulti]: with statuses OK, NotFound, OK it
    returns the three results and a nil error, not a [MultiError]. *)
Lemma ExistsMulti_NotFound_is_no_error :
  oneNotFound 1 [statusOK; statusNotFound; statusOK] ∧
  run secondNotFound (ExistsMulti exampleClient exampleKeys)
    = Some ([true; false; true], None) ∧
  ¬ reportsNotFoundAt 3 1 (run secondNotFound (ExistsMulti exampleClient exampleKeys)).
Proof.
  assert (run secondNotFound (ExistsMulti exampleClient exampleKeys)
          = Some ([true; false; true], None)) as Hrun by (vm_compute; reflexivity).
  split; [exact oneNotFound_second|]. split; [exact Hrun|].
  intros (res & me & H & _). rewrite Hrun in H. discriminate H.
Qed.

(** C2, as the code has it.  When the remote call succeeds and the response
    decodes, [GetMulti] and [AddMulti] return the decoded results whatever
    the statuses are, next to the aggregate error built from the statuses.
    [ExistsMulti] returns a nil result list with the [MultiError] as soon as
    one status is neither OK nor NotFound. *)
Theorem Multi_partial_failure (h : handler) (c : Client) :
  (∀ ks pbks resp docs,
     keys_proto ks = Ok pbks →
     h _ (Store_Get (newContext c) pbks) = Reply resp →
     pbRecords_records (resp.Records resp) = Ok docs →
     run h (GetMulti c ks)
       = Some (docs, multiErrorFromRecordStatusProto (resp.GetStatus resp)) ∧
     ∀ j pbr, resp.Records resp !! j = Some pbr →
              ∃ d, docs !! j = Some d ∧ recordFromProto pbr = Ok d) ∧
  (∀ rs ts pbrs resp keys,
     records_proto rs = Ok pbrs →
     h _ (Store_Add (newContext c) (addRequest pbrs ts)) = Reply resp →
     pbKeys_keys (resp.AddKeys resp) = Ok keys →
     run h (AddMulti c rs ts)
       = Some (keys, multiErrorFromRecordStatusProto (resp.AddStatus resp)) ∧
     ∀ j pbk, resp.AddKeys resp !! j = Some pbk →
              ∃ k, keys !! j = Some k ∧ keyFromProto pbk = Ok k) ∧
  (∀ ks pbks resp s,
     keys_proto ks = Ok pbks →
     h _ (Store_Exists (newContext c) pbks) = Reply resp →
     s ∈ resp.Status resp →
     uint32 (rpcpb.Code s) ≠ codes.OK →
     uint32 (rpcpb.Code s) ≠ codes.NotFound →
     ∃ errs, run h (ExistsMulti c ks) = Some ([], Some (MultiError errs)) ∧
             length errs = length (resp.Status resp)).
Proof.
  split; [|split].
  - intros ks pbks resp docs Hks Hh Hdocs. split.
    + by apply run_GetMulti with pbks.
    + intros j pbr Hj. by eapply collect_lookup.
  - intros rs ts pbrs resp keys Hrs Hh Hkeys. split.
    + by apply run_AddMulti with pbrs.
    + intros j pbk Hj. by eapply collect_lookup.
  - intros ks pbks resp s Hks Hh Hs Hok Hnf.
    rewrite (run_ExistsMulti _ _ _ _ _ Hks Hh).
    assert (forallb (λ s, bool_decide (existsError s = None)) (resp.Status resp) = false) as ->.
    { apply not_true_is_false. intros Hall. rewrite forallb_forall in Hall.
      apply list_elem_of_In, Hall, bool_decide_eq_true_1 in Hs.
      unfold existsError in Hs. by rewrite !decide_False in Hs. }
    eexists. split; [done|]. by rewrite length_fmap.
Qed.

(** A service whose second item fails with an internal error. *)
Definition secondFails : handler :=
  let status := [statusOK; statusInternal; statusOK] in
  service (Reply (resp.mkAdd [] status))
          (Reply (resp.mkGet [exampleRecord; pb.mkRecord ∅; exampleRecord] status))
          (Reply (resp.mkStatuses status)) (Reply (resp.mkStatuses status))
          (Reply (resp.mkAnalyse [] status)) (Reply (resp.mkStatuses status)).

Lemma Multi_partial_failure_witness :
  run secondFails (GetMulti exampleClient exampleKeys)
    = Some ([<["title" := Scalar (StringV "t")]> ∅; ∅; <["title" := Scalar (StringV "t")]> ∅],
            multiErrorFromRecordStatusProto [statusOK; statusInternal; statusOK]).
Proof.
  refine (proj1 (proj1 (Multi_partial_failure secondFails exampleClient)
                   exampleKeys _ (resp.mkGet _ _) _ _ _ _)).
  - vm_compute. reflexivity.
  - reflexivity.
  - vm_compute. reflexivity.
Defined.

(** C2 as stated fails for [ExistsMulti]: the first and third keys exist,
    the second fails, and the result list comes back empty. *)
Lemma ExistsMulti_drops_results :
  run secondFails (ExistsMulti exampleClient exampleKeys)
    = Some ([], Some (MultiError [None; Some (rpcError 13 "boom"); None])) ∧
  ¬ ∃ res err, run secondFails (ExistsMulti exampleClient exampleKeys)
                 = Some (res, Some err) ∧ res ≠ [].
Proof.
  assert (run secondFails (ExistsMulti exampleClient exampleKeys)
          = Some ([], Some (MultiError [None; Some (rpcError 13 "boom"); None])))
    as Hrun by (vm_compute; reflexivity).
  split; [exact Hrun|].
  intros (res & err & H & Hres). rewrite Hrun in H. by injection H as <- _.
Qed.

(** ** Singular operations *)

(** The size-one reading of a batch outcome, in the words of the
    specification: the first result when the batch returned no error, the
    error at index 0 when it returned a [MultiError], and otherwise the
    batch's error unchanged; [zero] is the result returned next to an error.
    Indexing an empty list panics. *)
Definition firstOf {A : Type} (zero : A) (multi : list A * option error)
    : option (A * option error) :=
  match multi with
  | (_, Some (MultiError me)) => e0 ← me !! 0%nat; Some (zero, e0)
  | (_, Some err) => Some (zero, Some err)
  | (res, None) => x ← res !! 0%nat; Some (x, None)
  end.

(** The same for the operations that return an error only. *)
Definition firstError (err : option error) : option (option error) :=
  match err with
  | Some (MultiError me) => me !! 0%nat
  | _ => Some err
  end.

(** C5. Each singular operation is its Multi counterpart on the one-element
    batch: it returns the first element of the Multi result, and the error at
    index 0 when the Multi call returns a [MultiError]. *)
Theorem singular_is_Multi_of_one (h : handler) (c : Client) :
  (∀ r ts, run h (Add c r ts) = run h (AddMulti c [r] ts) ≫= firstOf None) ∧
  (∀ k, run h (Get c k) = run h (GetMulti c [k]) ≫= firstOf ∅) ∧
  (∀ k, run h (Exists c k) = run h (ExistsMulti c [k]) ≫= firstOf false) ∧
  (∀ k, run h (Delete c k) = run h (DeleteMulti c [k]) ≫= firstError).
Proof.
  repeat split; intros.
  - unfold Add. rewrite run_bind.
    destruct (run h (AddMulti c [r] ts)) as [[ks [[]|]]|]; simpl; try done.
    + by destruct es.
    + by destruct ks.
  - unfold Get. rewrite run_bind.
    destruct (run h (GetMulti c [k])) as [[ks [[]|]]|]; simpl; try done.
    + by destruct es.
    + by destruct ks.
  - unfold Exists. rewrite run_bind.
    destruct (run h (ExistsMulti c [k])) as [[ks [[]|]]|]; simpl; try done.
    + by destruct es.
    + by destruct ks.
  - unfold Delete. rewrite run_bind.
    destruct (run h (DeleteMulti c [k])) as [[[]|]|]; simpl; try done.
    by destruct es.
Qed.

(** A service where the one record asked for is not found. *)
Definition notFound : handler :=
  service (Reply (resp.mkAdd [enginepb.mkKey "" None] [statusNotFound]))
          (Reply (resp.mkGet [pb.mkRecord ∅] [statusNotFound]))
          (Reply (resp.mkStatuses [statusNotFound]))
          (Reply (resp.mkStatuses [statusNotFound]))
          (Reply (resp.mkAnalyse [[]] [statusNotFound]))
          (Reply (resp.mkStatuses [statusNotFound])).

Example Get_not_found :
  run notFound (Get exampleClient (NewKey "id" (Scalar (StringV "a"))))
  = Some (∅, Some ErrNoSuchRecord).
Proof. vm_compute. reflexivity. Qed.

Example Exists_not_found :
  run notFound (Exists exampleClient (NewKey "id" (Scalar (StringV "a"))))
  = Some (false, None).
Proof. vm_compute. reflexivity. Qed.

Example Delete_not_found :
  run notFound (Delete exampleClient (NewKey "id" (Scalar (StringV "a"))))
  = Some (Some ErrNoSuchRecord).
Proof. vm_compute. reflexivity. Qed.

(** ** Filter trees *)

Lemma collect_Forall2 {A B : Type} (f : A → result B) xs ys :
  collect f xs = Ok ys ↔ Forall2 (λ x y, f x = Ok y) xs ys.
Proof.
  split.
  - revert ys. induction xs as [|x xs IH]; intros ys H.
    + injection H as <-. constructor.
    + rewrite collect_cons in H. destruct (f x) as [y| |] eqn:E; try discriminate.
      destruct (collect f xs) as [ys'| |]; try discriminate.
      injection H as <-. constructor; auto.
  - induction 1 as [|x y xs ys Hxy _ IH]; [done|].
    by rewrite collect_cons, Hxy, IH.
Qed.

(** Induction on filters, with the hypothesis for every child of a
    combinator. *)
Lemma Filter_nested_ind (P : Filter → Prop) :
  P nilFilter →
  (∀ op field value, P (fieldFilter op field value)) →
  (∀ op filters, Forall P filters → P (combFilter op filters)) →
  (∀ fieldLat fieldLng lat lng radius region,
      P (geoFilter fieldLat fieldLng lat lng radius region)) →
  ∀ f, P f.
Proof.
  intros Hnil Hfield Hcomb Hgeo. fix IH 1.
  intros [|op field value|op filters|fieldLat fieldLng lat lng radius region].
  - exact Hnil.
  - apply Hfield.
  - apply Hcomb. induction filters as [|f filters IHfs]; constructor.
    + apply IH.
    + exact IHfs.
  - apply Hgeo.
Qed.

Lemma Filter_proto_comb op filters :
  Filter_proto (combFilter op filters) =
  match combinatorOperator op with
  | None => Err (errorString ("invalid combinator operator: " +:+ pretty op))
  | Some pbop =>
      match collect Filter_proto filters with
      | Ok pfs => Ok (querypb.Filter_Combinator_ pbop pfs)
      | Err err => Err err
      | Panic => Panic
      end
  end.
Proof. reflexivity. Qed.

(** The wire filter [pf] is the image of the filter [f], node by node: a
    field filter becomes a field message, a geo filter a geo message, and a
    combinator becomes a combinator message with the operator of that node
    and the images of its children, one per child and in their order. *)
Inductive serializes : Filter → querypb.Filter → Prop :=
| serializes_field op field value pbop v :
    fieldFilterOperator op = Some pbop →
    pbValueFromInterface value = Ok v →
    serializes (fieldFilter op field value) (querypb.Filter_Field_ field pbop v)
| serializes_comb op filters pbop pfs :
    combinatorOperator op = Some pbop →
    Forall2 serializes filters pfs →
    serializes (combFilter op filters) (querypb.Filter_Combinator_ pbop pfs)
| serializes_geo fieldLat fieldLng lat lng radius region pbregion :
    geoRegion region = Some pbregion →
    serializes (geoFilter fieldLat fieldLng lat lng radius region)
               (querypb.Filter_Geo_ fieldLat fieldLng lat lng radius pbregion).

Lemma Filter_proto_serializes f : ∀ pf, Filter_proto f = Ok pf → serializes f pf.
Proof.
  induction f as [|op field value|op filters IH|fieldLat fieldLng lat lng radius region]
    using Filter_nested_ind; intros pf H.
  - discriminate H.
  - simpl in H. destruct (fieldFilterOperator op) as [pbop|] eqn:Eop; [|discriminate].
    destruct (pbValueFromInterface value) as [v| |] eqn:Ev; try discriminate.
    injection H as <-. by constructor.
  - rewrite Filter_proto_comb in H.
    destruct (combinatorOperator op) as [pbop|] eqn:Eop; [|discriminate].
    destruct (collect Filter_proto filters) as [pfs| |] eqn:Epfs; try discriminate.
    injection H as <-. constructor; [done|].
    apply collect_Forall2 in Epfs. clear Eop.
    induction Epfs as [|f pf filters pfs Hf _ IHfs]; [constructor|].
    inversion IH as [|? ? IHf IHrest]; subst. constructor; auto.
  - simpl in H. destruct (geoRegion region) as [pbregion|] eqn:Er; [|discriminate].
    injection H as <-. by constructor.
Qed.

Lemma serializes_Filter_proto f : ∀ pf, serializes f pf → Filter_proto f = Ok pf.
Proof.
  induction f as [|op field value|op filters IH|fieldLat fieldLng lat lng radius region]
    using Filter_nested_ind; intros pf H;
    inversion H as [? ? ? pbop v Hop Hv|? ? pbop pfs Hop Hfs|? ? ? ? ? ? pbregion Hr];
    subst.
  - simpl. by rewrite Hop, Hv.
  - rewrite Filter_proto_comb, Hop.
    assert (collect Filter_proto filters = Ok pfs) as ->; [|done].
    apply collect_Forall2. clear H Hop.
    induction Hfs as [|f pf filters pfs Hf _ IHfs]; [constructor|].
    inversion IH as [|? ? IHf IHrest]; subst. constructor; auto.
  - simpl. by rewrite Hr.
Qed.

(** A filter built from valid constructor inputs: no nil filter in it,
    every field operator one of the ten, every field value of a supported
    shape, every combinator operator and region one of the constants. *)
Fixpoint Filter_valid (f : Filter) : bool :=
  match f with
  | nilFilter => false
  | fieldFilter op _ value => bool_decide (op ∈ fieldOperators) && supported value
  | combFilter op filters =>
      bool_decide (combFilterOpAll ≤ op ≤ combFilterOpNone) && forallb Filter_valid filters
  | geoFilter _ _ _ _ _ region =>
      bool_decide (region = GeoFilterInside ∨ region = GeoFilterOutside)
  end.

(** No nil interface value is nested in the filter. *)
Fixpoint Filter_noNil (f : Filter) : bool :=
  match f with
  | nilFilter => false
  | combFilter _ filters => forallb Filter_noNil filters
  | _ => true
  end.

Lemma combinatorOperator_Some op :
  combFilterOpAll ≤ op ≤ combFilterOpNone ↔ ∃ pbop, combinatorOperator op = Some pbop.
Proof.
  unfold combFilterOpAll, combFilterOpNone. split.
  - intros H. assert (op = 0 ∨ op = 1 ∨ op = 2 ∨ op = 3) as Hop by lia.
    destruct_or!; subst; eexists; reflexivity.
  - intros [pbop H]. destruct op as [|p|p]; [lia| |discriminate].
    destruct p as [[?|?|]|[?|?|]|]; try discriminate; lia.
Qed.

Lemma geoRegion_Some region :
  region = GeoFilterInside ∨ region = GeoFilterOutside ↔
  ∃ pbregion, geoRegion region = Some pbregion.
Proof.
  unfold GeoFilterInside, GeoFilterOutside. split.
  - intros [-> | ->]; eexists; reflexivity.
  - intros [pbregion H]. destruct region as [|p|p]; [by left| |discriminate].
    destruct p; try discriminate. by right.
Qed.

Lemma fieldFilterOperator_iff op :
  op ∈ fieldOperators ↔ ∃ pbop, fieldFilterOperator op = Some pbop.
Proof.
  split; [apply fieldFilterOperator_Some|].
  intros [pbop H]. destruct (decide (op ∈ fieldOperators)) as [|Hn]; [done|].
  rewrite (fieldFilterOperator_None _ Hn) in H. discriminate.
Qed.

Lemma pbValueFromInterface_supported value :
  supported value = true ↔ ∃ v, pbValueFromInterface value = Ok v.
Proof.
  split.
  - intros H. destruct value; try discriminate; eexists; reflexivity.
  - intros [v H]. by destruct value.
Qed.

Lemma pbValueFromInterface_Err value err :
  pbValueFromInterface value = Err err →
  supported value = false ∧ err = errorString ("unsupported value: " +:+ fmt.T value).
Proof. destruct value; try discriminate; by intros [= <-]. Qed.

Lemma pbValueFromInterface_no_Panic value : pbValueFromInterface value ≠ Panic.
Proof. by destruct value. Qed.

Lemma Filter_valid_serializes f : Filter_valid f = true ↔ ∃ pf, serializes f pf.
Proof.
  induction f as [|op field value|op filters IH|fieldLat fieldLng lat lng radius region]
    using Filter_nested_ind; simpl.
  - split; [done|]. intros [pf H]. inversion H.
  - rewrite andb_true_iff, bool_decide_eq_true, fieldFilterOperator_iff,
      pbValueFromInterface_supported. split.
    + intros [[pbop Hop] [v Hv]]. eexists. by constructor.
    + intros [pf H]. inversion H; subst. eauto.
  - rewrite andb_true_iff, bool_decide_eq_true, combinatorOperator_Some. split.
    + intros [[pbop Hop] Hall].
      assert (∃ pfs, Forall2 serializes filters pfs) as [pfs Hpfs].
      { clear Hop. induction IH as [|f filters [Hf _] _ IHfs]; [by eexists|].
        simpl in Hall. apply andb_true_iff in Hall as [Hv Hall].
        destruct (Hf Hv) as [pf Hpf]. destruct (IHfs Hall) as [pfs Hpfs].
        exists (pf :: pfs). by constructor. }
      eexists. by constructor.
    + intros [pf H]. inversion H as [|? ? pbop pfs Hop Hfs|]; subst.
      split; [eauto|]. clear H Hop.
      induction Hfs as [|f pf filters pfs Hf _ IHfs]; [done|].
      inversion IH as [|? ? [_ IHf] IHrest]; subst. simpl.
      rewrite IHf by eauto. by rewrite IHfs.
  - rewrite bool_decide_eq_true, geoRegion_Some. split.
    + intros [pbregion Hr]. eexists. by constructor.
    + intros [pf H]. inversion H; subst. eauto.
Qed.

Lemma Filter_valid_Ok f : Filter_valid f = true ↔ ∃ pf, Filter_proto f = Ok pf.
Proof.
  rewrite Filter_valid_serializes.
  split; intros [pf H]; exists pf;
    [by apply serializes_Filter_proto|by apply Filter_proto_serializes].
Qed.

(** C7. Serialization keeps the shape of a filter tree: a filter
    serializes to [pf] exactly when [pf] is its image node by node, each
    combinator with its own operator and the images of its children in
    their order; every filter built from valid inputs does serialize; and
    [AllFilters(AnyFilter(a, b))] serializes to ALL over ANY over the two
    field filters. *)
Theorem nested_combinators_keep_shape :
  (∀ f pf, Filter_proto f = Ok pf ↔ serializes f pf) ∧
  (∀ f, Filter_valid f = true → ∃ pf, Filter_proto f = Ok pf) ∧
  Filter_proto (AllFilters [AnyFilter [FieldFilter "a =" (Scalar (IntV int 1));
                                       FieldFilter "b ~" (Scalar (StringV "x"))]])
  = Ok (querypb.Filter_Combinator_ querypb.Filter_Combinator_ALL
          [querypb.Filter_Combinator_ querypb.Filter_Combinator_ANY
             [querypb.Filter_Field_ "a" querypb.Filter_Field_EQUAL_TO
                (enginepb.Value_Single "1");
              querypb.Filter_Field_ "b" querypb.Filter_Field_CONTAINS
                (enginepb.Value_Single "x")]]).
Proof.
  split; [|split].
  - intros f pf. split; [apply Filter_proto_serializes|apply serializes_Filter_proto].
  - intros f. apply Filter_valid_Ok.
  - reflexivity.
Qed.

Lemma nested_combinators_keep_shape_witness :
  ∃ pf, Filter_proto (NoneOfFilters [OneOfFilters [FieldFilter "n <=" (Ints [1; 2])];
                                     GeoFilter "lat" "lng" float_one float_one float_one
                                               GeoFilterOutside])
        = Ok pf ∧
        serializes (NoneOfFilters [OneOfFilters [FieldFilter "n <=" (Ints [1; 2])];
                                   GeoFilter "lat" "lng" float_one float_one float_one
                                             GeoFilterOutside]) pf.
Proof.
  destruct (proj1 (proj2 nested_combinators_keep_shape)
              (NoneOfFilters [OneOfFilters [FieldFilter "n <=" (Ints [1; 2])];
                              GeoFilter "lat" "lng" float_one float_one float_one
                                        GeoFilterOutside]))
    as [pf Hpf].
  - vm_compute. reflexivity.
  - exists pf. split; [exact Hpf|].
    apply (proj1 (proj1 nested_combinators_keep_shape _ _)). exact Hpf.
Defined.

(** ** Serialization of the query model: errors, panics and success *)

(** The errors serialization reports, each with what causes it. *)
Inductive marshalError : error → Prop :=
| invalid_field_operator op :
    op ∉ fieldOperators →
    marshalError (errorString ("invalid field filter operator: " +:+ op))
| unsupported_field_value value :
    supported value = false →
    marshalError (errorString ("error marshalling value: unsupported value: "
                               +:+ fmt.T value))
| invalid_combinator op :
    ¬ (combFilterOpAll ≤ op ≤ combFilterOpNone) →
    marshalError (errorString ("invalid combinator operator: " +:+ pretty op))
| invalid_region region :
    ¬ (region = GeoFilterInside ∨ region = GeoFilterOutside) →
    marshalError (errorString ("geo filter: invalid region '" +:+ pretty region +:+ "'"))
| unknown_TrackingType t :
    t ∉ [TrackingNone; TrackingClick; TrackingPosNeg] →
    marshalError (errorString ("unknown TrackingType: " +:+ t)).

(** Validity and absence of nil for the other values of the query model. *)
Definition FieldBoost_valid (b : FieldBoost) : bool :=
  match b with
  | nilFieldBoost => false
  | filterFieldBoost filter _ => Filter_valid filter
  | _ => true
  end.

Definition FieldBoost_noNil (b : FieldBoost) : bool :=
  match b with
  | nilFieldBoost => false
  | filterFieldBoost filter _ => Filter_noNil filter
  | _ => true
  end.

Definition InstanceBoost_noNil (b : InstanceBoost) : bool :=
  match b with nilInstanceBoost => false | _ => true end.

Definition Aggregate_valid (a : Aggregate) : bool :=
  match a with
  | nilAggregate => false
  | bucketAggregate buckets => forallb (λ b, Filter_valid (BucketFilter b)) buckets
  | _ => true
  end.

Definition Aggregate_noNil (a : Aggregate) : bool :=
  match a with
  | nilAggregate => false
  | bucketAggregate buckets => forallb (λ b, Filter_noNil (BucketFilter b)) buckets
  | _ => true
  end.

Definition Sort_noNil (s : Sort) : bool :=
  match s with nilSort => false | _ => true end.

Definition Tracking_valid (t : Tracking) : bool :=
  bool_decide (Type_ t ∈ [TrackingNone; TrackingClick; TrackingPosNeg]).

(** What the specification asks of a serializer [S], given which values
    hold no nil ([noNil]) and which are built from valid inputs ([valid]):
    an error is one of [marshalError]; a panic needs a nil inside the value;
    and the valid values are exactly those that serialize. *)
Definition wellBehaved {A B : Type} (S : A → result B) (noNil valid : A → bool) : Prop :=
  (∀ x e, S x = Err e → marshalError e) ∧
  (∀ x, S x = Panic → noNil x = false) ∧
  (∀ x, valid x = true ↔ ∃ w, S x = Ok w).

Lemma Filter_proto_Err f : ∀ e, Filter_proto f = Err e → marshalError e.
Proof.
  induction f as [|op field value|op filters IH|fieldLat fieldLng lat lng radius region]
    using Filter_nested_ind; intros e H.
  - discriminate H.
  - simpl in H. destruct (fieldFilterOperator op) as [pbop|] eqn:Eop.
    + destruct (pbValueFromInterface value) as [v|err|] eqn:Ev; try discriminate.
      apply pbValueFromInterface_Err in Ev as [Hs ->]. injection H as <-.
      by apply unsupported_field_value.
    + injection H as <-. apply invalid_field_operator.
      intros [pbop Hop]%fieldFilterOperator_iff. congruence.
  - rewrite Filter_proto_comb in H.
    destruct (combinatorOperator op) as [pbop|] eqn:Eop.
    + destruct (collect Filter_proto filters) as [pfs|err|] eqn:Epfs; try discriminate.
      injection H as <-. apply collect_Err in Epfs as (child & Hchild & Herr).
      rewrite Forall_forall in IH. eauto.
    + injection H as <-. apply invalid_combinator.
      intros [pbop Hop]%combinatorOperator_Some. congruence.
  - simpl in H. destruct (geoRegion region) as [pbregion|] eqn:Er; [discriminate|].
    injection H as <-. apply invalid_region.
    intros [pbregion Hr]%geoRegion_Some. congruence.
Qed.

Lemma Filter_proto_Panic f : Filter_proto f = Panic → Filter_noNil f = false.
Proof.
  induction f as [|op field value|op filters IH|fieldLat fieldLng lat lng radius region]
    using Filter_nested_ind; intros H.
  - reflexivity.
  - simpl in H. destruct (fieldFilterOperator op); [|discriminate].
    destruct (pbValueFromInterface value) eqn:Ev; try discriminate.
    by apply pbValueFromInterface_no_Panic in Ev.
  - rewrite Filter_proto_comb in H. destruct (combinatorOperator op); [|discriminate].
    destruct (collect Filter_proto filters) as [pfs|err|] eqn:Epfs; try discriminate.
    apply collect_Panic in Epfs as (child & Hchild & Hp). simpl.
    apply not_true_is_false. intros Hall. rewrite forallb_forall in Hall.
    rewrite Forall_forall in IH. apply list_elem_of_In in Hchild as Hin.
    apply Hall in Hin. rewrite (IH child Hchild Hp) in Hin. discriminate.
  - simpl in H. by destruct (geoRegion region).
Qed.

Lemma Filter_wellBehaved : wellBehaved Filter_proto Filter_noNil Filter_valid.
Proof.
  split; [exact Filter_proto_Err|]. split; [exact Filter_proto_Panic|].
  exact Filter_valid_Ok.
Qed.

Lemma FieldBoost_wellBehaved :
  wellBehaved FieldBoost_proto FieldBoost_noNil FieldBoost_valid.
Proof.
  split; [|split].
  - intros [|filter value| | |] e H; try discriminate. simpl in H.
    destruct (Filter_proto filter) eqn:E; try discriminate.
    injection H as <-. by apply Filter_proto_Err in E.
  - intros [|filter value| | |] H; try discriminate; [done|]. simpl in *.
    destruct (Filter_proto filter) eqn:E; try discriminate.
    by apply Filter_proto_Panic.
  - intros [|filter value| | |]; simpl; try (split; [eexists; reflexivity|done]).
    + split; [done|]. by intros [w H].
    + rewrite Filter_valid_Ok. split; intros [w H].
      * rewrite H. by eexists.
      * destruct (Filter_proto filter); try discriminate. by eexists.
Qed.

Lemma FeatureFieldBoost_wellBehaved :
  wellBehaved FeatureFieldBoost_proto (λ ab, FieldBoost_noNil (boost ab))
              (λ ab, FieldBoost_valid (boost ab)).
Proof.
  destruct FieldBoost_wellBehaved as (Herr & Hpanic & Hok).
  unfold FeatureFieldBoost_proto. split; [|split].
  - intros ab e H. destruct (FieldBoost_proto (boost ab)) eqn:E; try discriminate.
    injection H as <-. eauto.
  - intros ab H. destruct (FieldBoost_proto (boost ab)) eqn:E; try discriminate. eauto.
  - intros ab. rewrite Hok. split; intros [w H].
    + rewrite H. by eexists.
    + destruct (FieldBoost_proto (boost ab)); try discriminate. by eexists.
Qed.

Lemma InstanceBoost_wellBehaved :
  wellBehaved InstanceBoost_proto InstanceBoost_noNil InstanceBoost_noNil.
Proof.
  split; [|split].
  - by intros [].
  - by intros [].
  - intros []; simpl; split; try done; try (by intros [w H]); by eexists.
Qed.

Lemma Sort_wellBehaved : wellBehaved Sort_proto Sort_noNil Sort_noNil.
Proof.
  split; [|split].
  - intros [|s] e H; [done|]. simpl in H. by destruct (strings.HasPrefix s "-").
  - intros [|s] H; [done|]. simpl in H. by destruct (strings.HasPrefix s "-").
  - intros [|s]; simpl.
    + split; [done|]. by intros [w H].
    + split; [|done]. intros _. destruct (strings.HasPrefix s "-"); by eexists.
Qed.

Lemma Bucket_wellBehaved :
  wellBehaved Bucket_proto (λ b, Filter_noNil (BucketFilter b))
              (λ b, Filter_valid (BucketFilter b)).
Proof.
  unfold Bucket_proto. split; [|split].
  - intros b e H. destruct (Filter_proto (BucketFilter b)) eqn:E; try discriminate.
    injection H as <-. by apply Filter_proto_Err in E.
  - intros b H. destruct (Filter_proto (BucketFilter b)) eqn:E; try discriminate.
    by apply Filter_proto_Panic.
  - intros b. rewrite Filter_valid_Ok. split; intros [w H].
    + rewrite H. by eexists.
    + destruct (Filter_proto (BucketFilter b)); try discriminate. by eexists.
Qed.

Lemma Aggregate_wellBehaved :
  wellBehaved Aggregate_proto Aggregate_noNil Aggregate_valid.
Proof.
  destruct Bucket_wellBehaved as (Herr & Hpanic & Hok). split; [|split].
  - intros [|field|buckets|m|m|m|m] e H; try discriminate. simpl in H.
    destruct (collect Bucket_proto buckets) eqn:E; try discriminate.
    injection H as <-. apply collect_Err in E as (b & _ & Hb). eauto.
  - intros [|field|buckets|m|m|m|m] H; try discriminate; [done|]. simpl in *.
    destruct (collect Bucket_proto buckets) eqn:E; try discriminate.
    apply collect_Panic in E as (b & Hin & Hb).
    apply not_true_is_false. intros Hall. rewrite forallb_forall in Hall.
    apply list_elem_of_In, Hall in Hin. rewrite (Hpanic b Hb) in Hin. discriminate.
  - intros [|field|buckets|m|m|m|m]; simpl; try (split; [eexists; reflexivity|done]).
    + split; [done|]. by intros [w H].
    + split.
      * intros Hall. destruct (collect_Ok Bucket_proto buckets) as [pbs ->]; [|by eexists].
        apply Forall_forall. intros b Hin%list_elem_of_In. apply Hok.
        rewrite forallb_forall in Hall. auto.
      * intros [w H]. destruct (collect Bucket_proto buckets) as [pbs| |] eqn:E;
          try discriminate.
        apply forallb_forall. intros b [j Hj]%list_elem_of_In%list_elem_of_lookup.
        destruct (collect_lookup _ _ _ _ _ E Hj) as (pb & _ & Hpb).
        apply Hok. eauto.
Qed.

Lemma TrackingType_proto_valid t :
  t ∈ [TrackingNone; TrackingClick; TrackingPosNeg] ↔ ∃ w, TrackingType_proto t = Ok w.
Proof.
  unfold TrackingType_proto. rewrite !elem_of_cons, elem_of_nil. split.
  - intros H. destruct_or!; subst; try done; by eexists.
  - intros [w H]. repeat case_decide; try discriminate; auto.
Qed.

Lemma Tracking_wellBehaved :
  wellBehaved Tracking_proto (λ _, true) Tracking_valid.
Proof.
  unfold Tracking_proto, Tracking_valid. split; [|split].
  - intros t e H. destruct (TrackingType_proto (Type_ t)) as [w|e'|] eqn:E;
      try discriminate.
    injection H as <-. unfold TrackingType_proto in E.
    repeat case_decide; try discriminate. injection E as <-.
    apply unknown_TrackingType. rewrite !elem_of_cons, elem_of_nil. tauto.
  - intros t H. destruct (TrackingType_proto (Type_ t)) as [w|e'|] eqn:E;
      try discriminate.
    unfold TrackingType_proto in E. repeat case_decide; discriminate.
  - intros t. rewrite bool_decide_eq_true, TrackingType_proto_valid.
    split; intros [w H].
    + rewrite H. by eexists.
    + destruct (TrackingType_proto (Type_ t)); try discriminate. by eexists.
Qed.

(** C6, as the code has it.  Serialization of a filter, a boost, an
    aggregate, a sort or a tracking configuration is a function of the value.
    It fails with an error only for an invalid field-filter operator, a
    field-filter value of an unsupported type, or an invalid enum value
    (combinator operator, geo region, tracking type), and the error names the
    cause; it does not panic on a value that holds no nil filter, boost,
    aggregate or sort; and exactly the values built from valid inputs
    serialize successfully. *)
Theorem serialization_fails_descriptively :
  wellBehaved Filter_proto Filter_noNil Filter_valid ∧
  wellBehaved FieldBoost_proto FieldBoost_noNil FieldBoost_valid ∧
  wellBehaved FeatureFieldBoost_proto (λ ab, FieldBoost_noNil (boost ab))
              (λ ab, FieldBoost_valid (boost ab)) ∧
  wellBehaved InstanceBoost_proto InstanceBoost_noNil InstanceBoost_noNil ∧
  wellBehaved Aggregate_proto Aggregate_noNil Aggregate_valid ∧
  wellBehaved Sort_proto Sort_noNil Sort_noNil ∧
  wellBehaved Tracking_proto (λ _, true) Tracking_valid.
Proof.
  repeat split;
    first [ apply Filter_wellBehaved | apply FieldBoost_wellBehaved
          | apply FeatureFieldBoost_wellBehaved | apply InstanceBoost_wellBehaved
          | apply Aggregate_wellBehaved | apply Sort_wellBehaved
          | apply Tracking_wellBehaved ].
Qed.

Lemma serialization_fails_descriptively_witness :
  marshalError (errorString "invalid combinator operator: 7") ∧
  (∃ w, Aggregate_proto (BucketAggregate
          [mkBucket "cheap" (FieldFilter "price <" (Scalar (IntV int 10)))]) = Ok w).
Proof.
  destruct serialization_fails_descriptively as ((Herr & _ & _) & _ & _ & _ & (_ & _ & Hok) & _).
  split.
  - apply (Herr (combFilter 7 [])). reflexivity.
  - apply (Hok (BucketAggregate
                  [mkBucket "cheap" (FieldFilter "price <" (Scalar (IntV int 10)))])).
    vm_compute. reflexivity.
Defined.

(** C6 as stated fails: a field filter with the valid operator "=" and a
    value of type [[]float64] does not serialize, and the error is neither
    about the operator nor about an enum value. *)
Lemma FieldFilter_unsupported_value :
  "=" ∈ fieldOperators ∧
  Filter_proto (FieldFilter "price =" (Other "[]float64"))
    = Err (errorString "error marshalling value: unsupported value: []float64").
Proof.
  split; [|reflexivity]. unfold fieldOperators. set_solver.
Qed.

(** And a nil filter inside a combinator, a bucket or a boost panics. *)
Example nil_filter_panics :
  Filter_proto (AllFilters [nilFilter]) = Panic ∧
  Aggregate_proto (BucketAggregate [mkBucket "all" nilFilter]) = Panic ∧
  FieldBoost_proto (FilterFieldBoost nilFilter float_one) = Panic.
Proof. repeat split. Qed.

(** ** LearnMulti *)

Definition exampleRequest : Request :=
  mkRequest (mkTracking TrackingNone "" 0 "" ∅) nilFilter
            (mkIndexQuery "shoes" [] [] [] []) (mkFeatureQuery [])
            0 10 [SortByField "-price"] [] ∅ [].

(** C9. When the number of keys differs from the number of counts or of
    scores, [LearnMulti] returns the validation error at once: the operation
    is a leaf of the call tree, so no remote call is issued against any
    service.  It is the only length check: with the three lengths equal and a
    request and keys that marshal, the first thing [LearnMulti] does is the
    remote Analyse call. *)
Theorem LearnMulti_length_check (c : Client) (ks : list (option Key)) (r : Request)
    (counts : list Z) (scores : list float) :
  (length ks ≠ length counts ∨ length ks ≠ length scores →
   LearnMulti c ks r counts scores
     = Ret (Some (errorString "number of keys, counts and scores do not match")) ∧
   ∀ h : handler, calls h (LearnMulti c ks r counts scores) = []) ∧
  (length ks = length counts → length ks = length scores →
   ∀ pr pbks, Request_proto r = Ok pr → keys_proto ks = Ok pbks →
     ∃ k, LearnMulti c ks r counts scores
          = Call (Query_Analyse (newContext c)
                    (querypb.mkAnalyseRequest (apipb.SearchRequest_ pr) pbks)) k).
Proof.
  unfold LearnMulti. split.
  - intros H. rewrite decide_True by done. split; [reflexivity|]. intros h. reflexivity.
  - intros Hc Hs pr pbks Hr Hks. rewrite decide_False by tauto.
    unfold AnalyseMulti. rewrite Hr, Hks. eexists. reflexivity.
Qed.

Lemma LearnMulti_length_check_witness :
  (LearnMulti exampleClient exampleKeys exampleRequest [1; 2] [float_one; float_one; float_one]
     = Ret (Some (errorString "number of keys, counts and scores do not match")) ∧
   ∀ h : handler,
     calls h (LearnMulti exampleClient exampleKeys exampleRequest [1; 2]
                [float_one; float_one; float_one]) = []) ∧
  (∃ req k,
     LearnMulti exampleClient exampleKeys exampleRequest [1; 2; 3]
       [float_one; float_one; float_one]
     = Call (Query_Analyse (newContext exampleClient) req) k).
Proof.
  split.
  - apply (proj1 (LearnMulti_length_check exampleClient exampleKeys exampleRequest
                    [1; 2] [float_one; float_one; float_one])).
    left. simpl. lia.
  - eexists.
    eapply (proj2 (LearnMulti_length_check exampleClient exampleKeys exampleRequest
                     [1; 2; 3] [float_one; float_one; float_one])).
    + reflexivity.
    + reflexivity.
    + vm_compute. reflexivity.
    + vm_compute. reflexivity.
Defined.

(** With the lengths equal, a reply with fewer term lists than keys is not
    checked for: indexing it panics. *)
Example LearnMulti_short_reply :
  run (service (Fault ErrNoSuchRecord) (Fault ErrNoSuchRecord) (Fault ErrNoSuchRecord)
               (Fault ErrNoSuchRecord) (Reply (resp.mkAnalyse [] []))
               (Reply (resp.mkStatuses [])))
      (LearnMulti exampleClient exampleKeys exampleRequest [1; 2; 3]
         [float_one; float_one; float_one])
  = None.
Proof. vm_compute. reflexivity. Qed.


(** * Further properties of the marshalling layer *)

(** ** Loops over maps *)

(** The loop shared by [protoValues.proto], [recordFromProto] and
    [aggregates.proto]: convert every value, stop at the first failure. *)
Definition traverse {A B : Type} (f : A → result B) (p : gmap string A)
    : result (gmap string B) :=
  map_fold (λ k v acc, m ← acc; w ← f v; Ok (<[k := w]> m)) (Ok ∅) p.

(** What the loop returns, whatever the iteration order: on success the
    converted map, key by key; otherwise the failure of one of the values. *)
Definition traversed {A B : Type} (f : A → result B) (p : gmap string A)
    (r : result (gmap string B)) : Prop :=
  match r with
  | Ok m => ∀ k, match p !! k with
                 | Some v => ∃ w, f v = Ok w ∧ m !! k = Some w
                 | None => m !! k = None
                 end
  | Err e => ∃ k v, p !! k = Some v ∧ f v = Err e
  | Panic => ∃ k v, p !! k = Some v ∧ f v = Panic
  end.

Lemma traverse_traversed {A B : Type} (f : A → result B) (p : gmap string A) :
  traversed f p (traverse f p).
Proof.
  unfold traverse. apply (map_fold_weak_ind (λ r p, traversed f p r)).
  - intros k. by rewrite !lookup_empty.
  - intros i x m r Hi IH. destruct r as [m'|e|]; simpl in *.
    + destruct (f x) as [w|e|] eqn:Ex; simpl.
      * intros k. destruct (decide (i = k)) as [->|Hne].
        -- rewrite !lookup_insert_eq. eauto.
        -- rewrite !lookup_insert_ne by done. apply IH.
      * exists i, x. by rewrite lookup_insert_eq.
      * exists i, x. by rewrite lookup_insert_eq.
    + destruct IH as (k & v & Hk & Hv). exists k, v. split; [|done].
      rewrite lookup_insert_ne; [done|]. intros ->. congruence.
    + destruct IH as (k & v & Hk & Hv). exists k, v. split; [|done].
      rewrite lookup_insert_ne; [done|]. intros ->. congruence.
Qed.

Lemma traverse_Ok {A B : Type} (f : A → result B) (p : gmap string A) :
  (∀ k v, p !! k = Some v → ∃ w, f v = Ok w) → ∃ m, traverse f p = Ok m.
Proof.
  intros H. pose proof (traverse_traversed f p) as Ht.
  destruct (traverse f p) as [m|e|]; [by eexists| |];
    destruct Ht as (k & v & Hk & Hv); destruct (H k v Hk) as [w Hw]; congruence.
Qed.

(** ** Records on the wire *)

(** Decoding of one wire value, when it is set. *)
Definition decoded (w : enginepb.Value) : option iface :=
  match w with
  | enginepb.Value_Single s => Some (Scalar (StringV s))
  | enginepb.Value_Repeated_ vs => Some (Strings vs)
  | enginepb.Value_unset => None
  end.

Lemma pbValueFromInterface_decoded v w :
  pbValueFromInterface v = Ok w → decoded w = stringTyped v ∧ supported v = true.
Proof. destruct v; try discriminate; by intros [= <-]. Qed.

Lemma valueFromProto_decoded w :
  valueFromProto (Some w) =
  match decoded w with
  | Some y => Ok y
  | None => Err (errorString "unexpected type: <nil>")
  end.
Proof. by destruct w. Qed.

Lemma recordFromProto_Ok (pbr : pb.Record_) :
  map_Forall (λ _ w, is_Some (decoded w)) (pb.Values pbr) →
  recordFromProto pbr = Ok (omap decoded (pb.Values pbr)).
Proof.
  intros Hall.
  pose proof (traverse_traversed (λ v, valueFromProto (Some v)) (pb.Values pbr)) as Ht.
  change (traverse _ _) with (recordFromProto pbr) in Ht.
  destruct (recordFromProto pbr) as [d|e|]; cbv beta iota delta [traversed] in Ht.
  - f_equal. apply map_eq. intros k. rewrite lookup_omap. specialize (Ht k).
    destruct (pb.Values pbr !! k) as [w|]; [|done].
    destruct Ht as (y & Hy & ->). rewrite valueFromProto_decoded in Hy. simpl.
    destruct (decoded w); congruence.
  - destruct Ht as (k & w & Hk & Hw). rewrite valueFromProto_decoded in Hw.
    destruct (Hall k w Hk) as [y Hy]. rewrite Hy in Hw. discriminate.
  - destruct Ht as (k & w & Hk & Hw). by destruct w.
Qed.



(** The wire value of a supported value. *)
Definition encoded (v : iface) : option enginepb.Value :=
  match pbValueFromInterface v with
  | Ok w => Some w
  | _ => None
  end.

Lemma protoValues_proto_Ok (r : gmap string iface) m :
  protoValues_proto r = Ok m →
  map_Forall (λ _ v, supported v = true) r ∧ ∀ k, m !! k = r !! k ≫= encoded.
Proof.
  intros H. pose proof (traverse_traversed pbValueFromInterface r) as Ht.
  change (traverse _ _) with (protoValues_proto r) in Ht. rewrite H in Ht.
  simpl in Ht. split.
  - intros k v Hk. specialize (Ht k). rewrite Hk in Ht.
    destruct Ht as (w & Hw & _). by apply pbValueFromInterface_decoded in Hw as [_ ?].
  - intros k. specialize (Ht k). destruct (r !! k) as [v|]; [|done].
    destruct Ht as (w & Hw & ->). unfold encoded. simpl. by rewrite Hw.
Qed.

Lemma protoValues_proto_supported (r : gmap string iface) :
  map_Forall (λ _ v, supported v = true) r → ∃ m, protoValues_proto r = Ok m.
Proof.
  intros Hall. apply (traverse_Ok pbValueFromInterface r).
  intros k v Hk. apply pbValueFromInterface_supported. eauto.
Qed.

Lemma protoValues_proto_Err (r : gmap string iface) e :
  protoValues_proto r = Err e →
  ∃ k v, r !! k = Some v ∧ supported v = false ∧
         e = errorString ("unsupported value: " +:+ fmt.T v).
Proof.
  intros H. pose proof (traverse_traversed pbValueFromInterface r) as Ht.
  change (traverse _ _) with (protoValues_proto r) in Ht. rewrite H in Ht.
  destruct Ht as (k & v & Hk & Hv). exists k, v.
  apply pbValueFromInterface_Err in Hv as [? ->]. done.
Qed.

Lemma protoValues_proto_no_Panic (r : gmap string iface) : protoValues_proto r ≠ Panic.
Proof.
  intros H. pose proof (traverse_traversed pbValueFromInterface r) as Ht.
  change (traverse _ _) with (protoValues_proto r) in Ht. rewrite H in Ht.
  destruct Ht as (k & v & Hk & Hv). by apply pbValueFromInterface_no_Panic in Hv.
Qed.

Lemma decoded_encoded (v : iface) : encoded v ≫= decoded = stringTyped v.
Proof. by destruct v. Qed.

Lemma encoded_is_set (r : gmap string iface) (m : gmap string enginepb.Value) :
  (∀ k, m !! k = r !! k ≫= encoded) → map_Forall (λ _ w, is_Some (decoded w)) m.
Proof.
  intros Hm k w Hk. rewrite Hm in Hk. destruct (r !! k) as [v|]; [|done].
  simpl in Hk. destruct v; try discriminate; injection Hk as <-; by eexists.
Qed.

(** X2. [Record.proto] never panics.  It succeeds exactly when every value
    of the record has a supported shape; it then keeps the keys, and decoding
    the wire record gives every value in its string-typed form.  Otherwise
    it returns "unsupported value: T" for the type [T] of one of the record's
    unsupported values. *)
Theorem Record_proto_round_trip (r : gmap string iface) :
  match Record_proto r with
  | Ok pbr =>
      map_Forall (λ _ v, supported v = true) r ∧
      dom (pb.Values pbr) = dom r ∧
      recordFromProto pbr = Ok (omap stringTyped r)
  | Err e =>
      ∃ k v, r !! k = Some v ∧ supported v = false ∧
             e = errorString ("unsupported value: " +:+ fmt.T v)
  | Panic => False
  end.
Proof.
  unfold Record_proto. destruct (protoValues_proto r) as [m|e|] eqn:E; simpl.
  - destruct (protoValues_proto_Ok r m E) as [Hall Hm]. split; [done|]. split.
    + apply set_eq. intros k. rewrite !elem_of_dom, Hm.
      destruct (r !! k) as [v|] eqn:Hk; simpl.
      * destruct (proj1 (pbValueFromInterface_supported v) (Hall k v Hk)) as [w Hw].
        unfold encoded. rewrite Hw. split; eauto.
      * split; intros [? ?]; discriminate.
    + rewrite recordFromProto_Ok by (simpl; by eapply encoded_is_set).
      f_equal. apply map_eq. intros k. simpl. rewrite !lookup_omap, Hm.
      destruct (r !! k) as [v|]; [|done]. apply decoded_encoded.
  - by apply protoValues_proto_Err.
  - by apply protoValues_proto_no_Panic in E.
Qed.

(** X3. [NewRecord] hides whatever the caller stored under "_body": the
    record of [NewRecord body values] marshals as soon as the values under
    the other keys have a supported shape, the wire record carries [body] as
    the single value of "_body", and decoding it gives back the body and the
    string-typed form of the other values. *)
Theorem NewRecord_proto (body : string) (values : gmap string iface) :
  (∀ k v, k ≠ BodyField → values !! k = Some v → supported v = true) →
  ∃ pbr, Record_proto (NewRecord body values) = Ok pbr ∧
         pb.Values pbr !! BodyField = Some (enginepb.Value_Single body) ∧
         recordFromProto pbr
           = Ok (<[BodyField := Scalar (StringV body)]> (omap stringTyped values)).
Proof.
  intros Hvalues. unfold NewRecord, Record_proto. rewrite NewRecord_copy.
  destruct (protoValues_proto_supported (<[BodyField := Scalar (StringV body)]> values))
    as [m Hm].
  { intros k v. destruct (decide (k = BodyField)) as [->|Hne].
    - rewrite lookup_insert_eq. by intros [= <-].
    - rewrite lookup_insert_ne by done. eauto. }
  rewrite Hm. simpl. eexists. split; [done|].
  apply protoValues_proto_Ok in Hm as [_ Hm]. simpl. split.
  - by rewrite Hm, lookup_insert_eq.
  - rewrite recordFromProto_Ok by (simpl; by eapply encoded_is_set).
    f_equal. apply map_eq. intros k. simpl. rewrite lookup_omap, Hm.
    destruct (decide (k = BodyField)) as [->|Hne].
    + by rewrite !lookup_insert_eq.
    + rewrite !lookup_insert_ne by done. rewrite lookup_omap.
      destruct (values !! k) as [v|]; [|done]. apply decoded_encoded.
Qed.

Lemma NewRecord_proto_witness :
  ∃ pbr, Record_proto (NewRecord "hello" (<["_body" := Nil]> (<["n" := Ints [1; 2]]> ∅)))
           = Ok pbr ∧
         pb.Values pbr !! BodyField = Some (enginepb.Value_Single "hello") ∧
         recordFromProto pbr
           = Ok (<[BodyField := Scalar (StringV "hello")]>
                   (omap stringTyped (<["_body" := Nil]> (<["n" := Ints [1; 2]]> ∅)))).
Proof.
  apply (NewRecord_proto "hello" (<["_body" := Nil]> (<["n" := Ints [1; 2]]> ∅))).
  intros k v Hk. rewrite lookup_insert_ne by done.
  destruct (decide (k = "n")) as [->|Hn].
  - rewrite lookup_insert_eq. by intros [= <-].
  - rewrite lookup_insert_ne by done. by rewrite lookup_empty.
Defined.

(** ** Keys on the wire *)

Lemma collect_first_Err {A B : Type} (f : A → result B) xs e :
  collect f xs = Err e →
  ∃ i x, xs !! i = Some x ∧ f x = Err e ∧
         ∀ j x', (j < i)%nat → xs !! j = Some x' → ∃ y, f x' = Ok y.
Proof.
  induction xs as [|x xs IH]; [done|]. rewrite collect_cons.
  destruct (f x) as [y|e'|] eqn:E; try discriminate.
  - destruct (collect f xs); try discriminate. intros [= <-].
    destruct IH as (i & x' & Hi & Hx' & Hbefore); [done|].
    exists (S i), x'. split; [done|]. split; [done|].
    intros [|j] x'' Hj Hx''; simpl in Hx''.
    + injection Hx'' as <-. eauto.
    + apply (Hbefore j); [lia|done].
  - intros [= <-]. exists 0%nat, x. split; [done|]. split; [done|]. intros; lia.
Qed.

(** The error [Key.proto] returns for a key, if any: a nil key is "empty
    key", a value that is not a scalar is refused with its type. *)
Definition keyError (k : option Key) : option error :=
  match k with
  | None => Some (errorString "empty key")
  | Some k =>
      match value k with
      | Scalar _ => None
      | v => Some (errorString ("error marshalling key value: expected single value, got "
                                +:+ fmt.T v))
      end
  end.

(** A key as it comes back from the wire: the same field, the value as a
    string. *)
Definition stringKey (k : option Key) : option Key :=
  k ≫= λ k, mkKey (field k) <$> stringTyped (value k).

Lemma Key_proto_keyError (k : option Key) :
  match keyError k with
  | Some e => Key_proto k = Err e
  | None => ∃ pbk, Key_proto k = Ok pbk ∧ keyFromProto pbk = Ok (stringKey k)
  end.
Proof.
  destruct k as [[f v]|]; [|done]. destruct v; try done. simpl.
  eexists. split; [reflexivity|]. by destruct f.
Qed.

(** X4. Keys that marshal come back from the wire in the same number and
    order, each with its field and with its value printed as a string. *)
Theorem keys_round_trip (ks : list (option Key)) (pbks : list enginepb.Key) :
  keys_proto ks = Ok pbks →
  length pbks = length ks ∧ pbKeys_keys pbks = Ok (stringKey <$> ks).
Proof.
  intros H. split; [by apply collect_length in H|].
  apply collect_Forall2 in H. apply collect_Forall2.
  induction H as [|k pbk ks pbks Hk _ IH]; [constructor|]. constructor; [|exact IH].
  pose proof (Key_proto_keyError k) as Hcases.
  destruct (keyError k); [congruence|].
  destruct Hcases as (pbk' & Hpbk & Hback). congruence.
Qed.

Lemma keys_round_trip_witness :
  length [enginepb.mkKey "id" (Some (enginepb.Value_Single "a"));
          enginepb.mkKey "id" (Some (enginepb.Value_Single "2"));
          enginepb.mkKey "id" (Some (enginepb.Value_Single "c"))] = length exampleKeys ∧
  pbKeys_keys [enginepb.mkKey "id" (Some (enginepb.Value_Single "a"));
               enginepb.mkKey "id" (Some (enginepb.Value_Single "2"));
               enginepb.mkKey "id" (Some (enginepb.Value_Single "c"))]
    = Ok (stringKey <$> exampleKeys).
Proof. apply (keys_round_trip exampleKeys). reflexivity. Defined.

(** X5. [keys.proto] never panics.  It succeeds exactly when no key is nil
    and every key value is a scalar, with one wire key per key; otherwise it
    returns the error of the first offending key: "empty key" for a nil key,
    "error marshalling key value: expected single value, got T" for a value
    of another type [T]. *)
Theorem keys_proto_first_error (ks : list (option Key)) :
  match keys_proto ks with
  | Ok pbks => Forall (λ k, keyError k = None) ks ∧ length pbks = length ks
  | Err e =>
      ∃ i k, ks !! i = Some k ∧ keyError k = Some e ∧
             ∀ j k', (j < i)%nat → ks !! j = Some k' → keyError k' = None
  | Panic => False
  end.
Proof.
  unfold keys_proto. destruct (collect Key_proto ks) as [pbks|e|] eqn:E.
  - split; [|by apply collect_length in E].
    apply collect_Forall2 in E. induction E as [|k pbk ks pbks Hk _ IH]; constructor; [|done].
    pose proof (Key_proto_keyError k) as Hcases. destruct (keyError k); congruence.
  - apply collect_first_Err in E as (i & k & Hi & Hk & Hbefore). exists i, k.
    split; [done|]. split.
    + pose proof (Key_proto_keyError k) as Hcases. destruct (keyError k).
      * congruence.
      * destruct Hcases as (pbk & Hpbk & _). congruence.
    + intros j k' Hj Hk'. destruct (Hbefore j k' Hj Hk') as [y Hy].
      pose proof (Key_proto_keyError k') as Hcases. destruct (keyError k'); congruence.
  - apply collect_Panic in E as (k & _ & Hk).
    pose proof (Key_proto_keyError k) as Hcases. destruct (keyError k).
    + congruence.
    + destruct Hcases as (pbk & Hpbk & _). congruence.
Qed.

Example keys_proto_nil_key :
  keys_proto [NewKey "id" (Scalar (IntV int 1)); NewKey "id" (Strings ["a"]); None]
  = Err (errorString "error marshalling key value: expected single value, got []string").
Proof. reflexivity. Qed.

(** ** Statuses and the aggregate error *)

Lemma forallb_false_lookup {A : Type} (f : A → bool) (l : list A) :
  forallb f l = false → ∃ i x, l !! i = Some x ∧ f x = false.
Proof.
  induction l as [|x l IH]; [done|]. simpl. destruct (f x) eqn:E.
  - intros (i & y & Hi & Hy)%IH. by exists (S i), y.
  - intros _. by exists 0%nat, x.
Qed.

Lemma recordStatusError_None s :
  recordStatusError s = None ↔ uint32 (rpcpb.Code s) = codes.OK.
Proof. unfold recordStatusError. repeat case_decide; split; congruence. Qed.

(** X6. [multiErrorFromRecordStatusProto] returns nil exactly when every
    status is OK.  Otherwise it returns a [MultiError] with one entry per
    status, in order (nil for OK, [ErrNoSuchRecord] for NotFound, a gRPC
    error with the status code and message otherwise), so at least one entry
    is not nil. *)
Theorem multiErrorFromRecordStatusProto_positional (status : list rpcpb.Status) :
  match multiErrorFromRecordStatusProto status with
  | None => ∀ s, s ∈ status → uint32 (rpcpb.Code s) = codes.OK
  | Some (MultiError me) =>
      me = recordStatusError <$> status ∧
      ∃ i s e, status !! i = Some s ∧ uint32 (rpcpb.Code s) ≠ codes.OK ∧
               me !! i = Some (Some e)
  | Some _ => False
  end.
Proof.
  rewrite multiErrorFromRecordStatusProto_map.
  destruct (forallb _ status) eqn:E.
  - intros s Hs%list_elem_of_In. rewrite forallb_forall in E. apply E in Hs.
    apply bool_decide_eq_true_1 in Hs. by apply recordStatusError_None.
  - split; [done|]. apply forallb_false_lookup in E as (i & s & Hi & Hs).
    apply bool_decide_eq_false_1 in Hs.
    destruct (recordStatusError s) as [e|] eqn:Ee; [|done].
    exists i, s, e. split; [done|]. split.
    + intros Hc%recordStatusError_None. congruence.
    + by rewrite list_lookup_fmap, Hi, <- Ee.
Qed.

Lemma multiErrorFromRecordStatusProto_nonempty status e :
  multiErrorFromRecordStatusProto status = Some e → ∃ e0 me, e = MultiError (e0 :: me).
Proof.
  rewrite multiErrorFromRecordStatusProto_map. destruct (forallb _ status) eqn:E; [done|].
  intros [= <-]. destruct status as [|s status]; [done|]. simpl. eauto.
Qed.

(** ** Remote calls of the record store *)

(** X7. A batch operation of the record store issues no remote call when
    its input does not marshal, and otherwise exactly one, with the
    marshalled input and the client's project and collection as metadata. *)
Theorem Multi_calls (h : handler) (c : Client) :
  newContext c !! "project" = Some (Project c) ∧
  newContext c !! "collection" = Some (Collection c) ∧
  (∀ ks, calls h (GetMulti c ks) =
         match keys_proto ks with
         | Ok pbks => [existT _ (Store_Get (newContext c) pbks)]
         | _ => []
         end) ∧
  (∀ ks, calls h (ExistsMulti c ks) =
         match keys_proto ks with
         | Ok pbks => [existT _ (Store_Exists (newContext c) pbks)]
         | _ => []
         end) ∧
  (∀ ks, calls h (DeleteMulti c ks) =
         match keys_proto ks with
         | Ok pbks => [existT _ (Store_Delete (newContext c) pbks)]
         | _ => []
         end) ∧
  (∀ rs ts, calls h (AddMulti c rs ts) =
            match records_proto rs with
            | Ok pbrs => [existT _ (Store_Add (newContext c) (addRequest pbrs ts))]
            | _ => []
            end).
Proof.
  split; [done|]. split; [done|]. repeat split.
  - intros ks. unfold GetMulti. destruct (keys_proto ks) as [pbks| |]; try done.
    simpl. f_equal. destruct (h _ _) as [resp|]; [|done].
    by destruct (pbRecords_records _).
  - intros ks. unfold ExistsMulti. destruct (keys_proto ks) as [pbks| |]; try done.
    simpl. f_equal. destruct (h _ _) as [resp|]; [|done].
    by destruct (existsStatuses _) as [[out errs] []].
  - intros ks. unfold DeleteMulti. destruct (keys_proto ks) as [pbks| |]; try done.
    simpl. f_equal. by destruct (h _ _).
  - intros rs ts. unfold AddMulti. destruct (records_proto rs) as [pbrs| |]; try done.
    simpl. assert (pb.mkRecords pbrs
            (map pb.mkTransform match ts with [] => ts ++ DefaultAddTransforms | _ => ts end)
          = addRequest pbrs ts) as -> by (by destruct ts).
    f_equal. destruct (h _ _) as [resp|]; [|done]. by destruct (pbKeys_keys _).
Qed.

(** X8. Errors are passed on unchanged with a nil result: a batch operation
    returns the marshalling error of its input without calling the service,
    and the error of the transport when the remote call fails. *)
Theorem Multi_errors_unchanged (h : handler) (c : Client) :
  (∀ ks err, keys_proto ks = Err err →
     run h (GetMulti c ks) = Some ([], Some err) ∧
     run h (ExistsMulti c ks) = Some ([], Some err) ∧
     run h (DeleteMulti c ks) = Some (Some err)) ∧
  (∀ rs ts err, records_proto rs = Err err →
     run h (AddMulti c rs ts) = Some ([], Some err)) ∧
  (∀ ks pbks err, keys_proto ks = Ok pbks →
     (h _ (Store_Get (newContext c) pbks) = Fault err →
      run h (GetMulti c ks) = Some ([], Some err)) ∧
     (h _ (Store_Exists (newContext c) pbks) = Fault err →
      run h (ExistsMulti c ks) = Some ([], Some err)) ∧
     (h _ (Store_Delete (newContext c) pbks) = Fault err →
      run h (DeleteMulti c ks) = Some (Some err))) ∧
  (∀ rs ts pbrs err, records_proto rs = Ok pbrs →
     h _ (Store_Add (newContext c) (addRequest pbrs ts)) = Fault err →
     run h (AddMulti c rs ts) = Some ([], Some err)).
Proof.
  repeat split.
  - unfold GetMulti. by rewrite run_try, H.
  - unfold ExistsMulti. by rewrite run_try, H.
  - unfold DeleteMulti. by rewrite run_try, H.
  - intros rs ts err H. unfold AddMulti. by rewrite run_try, H.
  - intros Hh. unfold GetMulti. by rewrite run_try, H, run_call, Hh.
  - intros Hh. unfold ExistsMulti. by rewrite run_try, H, run_call, Hh.
  - intros Hh. unfold DeleteMulti. by rewrite run_try, H, run_call, Hh.
  - intros rs ts pbrs err H Hh. unfold AddMulti. rewrite run_try, H, run_call.
    assert (pb.mkRecords pbrs
            (map pb.mkTransform match ts with [] => ts ++ DefaultAddTransforms | _ => ts end)
          = addRequest pbrs ts) as -> by (by destruct ts).
    by rewrite Hh.
Qed.

(** A service whose transport is down. *)
Definition unavailable : handler :=
  service (Fault (rpcError 14 "down")) (Fault (rpcError 14 "down"))
          (Fault (rpcError 14 "down")) (Fault (rpcError 14 "down"))
          (Fault (rpcError 14 "down")) (Fault (rpcError 14 "down")).

Lemma Multi_errors_unchanged_witness :
  run unavailable (GetMulti exampleClient [None]) = Some ([], Some (errorString "empty key")) ∧
  run unavailable (GetMulti exampleClient exampleKeys) = Some ([], Some (rpcError 14 "down")).
Proof.
  split.
  - apply (proj1 (Multi_errors_unchanged unavailable exampleClient) [None]). reflexivity.
  - refine (proj1 (proj1 (proj2 (proj2 (Multi_errors_unchanged unavailable exampleClient)))
                     exampleKeys _ _ _) _).
    + vm_compute. reflexivity.
    + reflexivity.
Defined.

(** ** Singular operations: panics and errors *)

Lemma keys_proto_Err_errorString ks e : keys_proto ks = Err e → ∃ s, e = errorString s.
Proof.
  intros (k & _ & Hk)%collect_Err. destruct k as [[f v]|]; simpl in Hk.
  - destruct v; try discriminate; injection Hk as <-; eauto.
  - injection Hk as <-. eauto.
Qed.

Lemma keys_proto_no_Panic ks : keys_proto ks ≠ Panic.
Proof.
  intros (k & _ & Hk)%collect_Panic. destruct k as [[f v]|]; [|done]. by destruct v.
Qed.

(** X9. [Delete] and [DeleteMulti] never panic, whatever the key and
    whatever the service replies, provided the transport's own failures are
    not [MultiError] values: a [MultiError] built from statuses is never
    empty, so its index 0 exists. *)
Theorem Delete_never_panics (h : handler) (c : Client) (k : option Key) :
  (∀ md keys me, h _ (Store_Delete md keys) ≠ Fault (MultiError me)) →
  (∃ err, run h (DeleteMulti c [k]) = Some err) ∧ ∃ err, run h (Delete c k) = Some err.
Proof.
  intros Hh.
  assert (∃ err, run h (DeleteMulti c [k]) = Some err ∧
                 ∀ me, err = Some (MultiError me) → me ≠ []) as (err & Hrun & Hme).
  { unfold DeleteMulti. rewrite run_try.
    destruct (keys_proto [k]) as [pbks|e|] eqn:Ek.
    - rewrite run_call. destruct (h _ _) as [resp|e] eqn:Er.
      + eexists. split; [done|]. intros me Hm.
        apply multiErrorFromRecordStatusProto_nonempty in Hm as (e0 & me' & [= ->]). done.
      + eexists. split; [done|]. intros me [= ->]. by apply Hh in Er.
    - eexists. split; [done|]. intros me [= ->].
      by apply keys_proto_Err_errorString in Ek as [s Hs].
    - by apply keys_proto_no_Panic in Ek. }
  split; [eauto|]. unfold Delete. rewrite run_bind, Hrun. simpl.
  destruct err as [[| | |me]|]; try by eexists.
  destruct me as [|e0 me]; [by destruct (Hme [])|]. by eexists.
Qed.

Lemma Delete_never_panics_witness :
  (∃ err, run notFound (DeleteMulti exampleClient [None]) = Some err) ∧
  ∃ err, run notFound (Delete exampleClient None) = Some err.
Proof.
  apply (Delete_never_panics notFound exampleClient None).
  intros md keys me H. discriminate H.
Defined.

(** X10. [Exists] panics on exactly one kind of reply: with a key that
    marshals and a remote call that succeeds, [Exists] panics if and only if
    the reply carries no status at all (the result list is then empty and
    its index 0 does not exist). *)
Theorem Exists_panics_iff_no_status (h : handler) (c : Client) (k : option Key)
    (pbks : list enginepb.Key) (resp : resp.Statuses) :
  keys_proto [k] = Ok pbks →
  h _ (Store_Exists (newContext c) pbks) = Reply resp →
  (run h (Exists c k) = None ↔ resp.Status resp = []).
Proof.
  intros Hk Hh. unfold Exists. rewrite run_bind, (run_ExistsMulti _ _ _ _ _ Hk Hh).
  destruct (resp.Status resp) as [|s status]; [done|]. simpl.
  destruct (existsError s) as [e|] eqn:Ee; simpl; [done|].
  assert (∃ b, existsResult s = Some b) as [b Hb].
  { unfold existsError in Ee. unfold existsResult. repeat case_decide; eauto. done. }
  rewrite Hb. by destruct (forallb _ status).
Qed.

Lemma Exists_panics_iff_no_status_witness :
  run (service (Fault ErrNoSuchRecord) (Fault ErrNoSuchRecord) (Reply (resp.mkStatuses []))
               (Fault ErrNoSuchRecord) (Fault ErrNoSuchRecord) (Fault ErrNoSuchRecord))
      (Exists exampleClient (NewKey "id" (Scalar (IntV int 1)))) = None.
Proof.
  refine (proj2 (Exists_panics_iff_no_status _ exampleClient _ _ (resp.mkStatuses []) _ _) _).
  - vm_compute. reflexivity.
  - reflexivity.
  - reflexivity.
Defined.

(** X11. A failure of the transport reaches the caller of a singular
    operation unchanged, with the zero result, when it is not itself a
    [MultiError]. *)
Theorem singular_transport_error (h : handler) (c : Client) (k : option Key)
    (pbks : list enginepb.Key) (err : error) :
  keys_proto [k] = Ok pbks →
  (∀ me, err ≠ MultiError me) →
  (h _ (Store_Get (newContext c) pbks) = Fault err →
   run h (Get c k) = Some (∅, Some err)) ∧
  (h _ (Store_Exists (newContext c) pbks) = Fault err →
   run h (Exists c k) = Some (false, Some err)) ∧
  (h _ (Store_Delete (newContext c) pbks) = Fault err →
   run h (Delete c k) = Some (Some err)).
Proof.
  intros Hk Herr. repeat split; intros Hh.
  - unfold Get, GetMulti. rewrite run_bind, run_try, Hk, run_call, Hh. simpl.
    destruct err; try done. by destruct (Herr es).
  - unfold Exists, ExistsMulti. rewrite run_bind, run_try, Hk, run_call, Hh. simpl.
    destruct err; try done. by destruct (Herr es).
  - unfold Delete, DeleteMulti. rewrite run_bind, run_try, Hk, run_call, Hh. simpl.
    destruct err; try done. by destruct (Herr es).
Qed.

Lemma singular_transport_error_witness :
  run unavailable (Get exampleClient (NewKey "id" (Scalar (IntV int 1))))
    = Some (∅, Some (rpcError 14 "down")).
Proof.
  refine (proj1 (singular_transport_error unavailable exampleClient _ _ (rpcError 14 "down")
                   _ _) _).
  - vm_compute. reflexivity.
  - intros me H. discriminate H.
  - reflexivity.
Defined.

(** ** Field filters: every operator *)

(** X12. [FieldFilter] accepts each of the ten operators written after the
    field name, with or without a space between them: for a field name that
    does not itself end in a space or an operator byte and a value of a
    supported shape, the filter serializes to a field filter on that field
    with the wire operator of the written operator. *)
Theorem FieldFilter_every_operator (field op : string) (value : iface)
    (v : enginepb.Value) :
  strings.TrimRight field operatorBytes = field →
  op ∈ fieldOperators →
  pbValueFromInterface value = Ok v →
  ∃ pbop, fieldFilterOperator op = Some pbop ∧
          Filter_proto (FieldFilter (field +:+ " " +:+ op) value)
            = Ok (querypb.Filter_Field_ field pbop v) ∧
          Filter_proto (FieldFilter (field +:+ op) value)
            = Ok (querypb.Filter_Field_ field pbop v).
Proof.
  intros Hf Hop Hv. destruct (fieldFilterOperator_Some op Hop) as [pbop Hpbop].
  exists pbop. split; [done|].
  assert (allIn operatorBytes (" " +:+ op) = true ∧ strings.TrimSpace (" " +:+ op) = op ∧
          allIn operatorBytes op = true ∧ strings.TrimSpace op = op) as (H1 & H2 & H3 & H4).
  { unfold fieldOperators in Hop. rewrite !elem_of_cons, elem_of_nil in Hop.
    destruct_or!; subst; try done; repeat split. }
  split.
  - rewrite (FieldFilter_parts _ _ _ Hf H1), H2. simpl. by rewrite Hpbop, Hv.
  - rewrite (FieldFilter_parts _ _ _ Hf H3), H4. simpl. by rewrite Hpbop, Hv.
Qed.

Lemma FieldFilter_every_operator_witness :
  ∃ pbop, fieldFilterOperator "!~" = Some pbop ∧
          Filter_proto (FieldFilter ("first name" +:+ " " +:+ "!~") (Scalar (StringV "x")))
            = Ok (querypb.Filter_Field_ "first name" pbop (enginepb.Value_Single "x")) ∧
          Filter_proto (FieldFilter ("first name" +:+ "!~") (Scalar (StringV "x")))
            = Ok (querypb.Filter_Field_ "first name" pbop (enginepb.Value_Single "x")).
Proof.
  apply (FieldFilter_every_operator "first name" "!~" (Scalar (StringV "x"))).
  - reflexivity.
  - apply (bool_decide_unpack ("!~" ∈ fieldOperators)). vm_compute. exact I.
  - reflexivity.
Defined.

(** X13. The ten operators go to ten different wire operators: two
    operator strings with the same wire operator are the same string. *)
Theorem fieldFilterOperator_injective (op1 op2 : string)
    (pbop : querypb.Filter_Field_Operator) :
  fieldFilterOperator op1 = Some pbop → fieldFilterOperator op2 = Some pbop → op1 = op2.
Proof.
  intros H1 H2.
  assert (op1 ∈ fieldOperators) as Hin1 by (apply fieldFilterOperator_iff; eauto).
  assert (op2 ∈ fieldOperators) as Hin2 by (apply fieldFilterOperator_iff; eauto).
  unfold fieldOperators in Hin1, Hin2. rewrite !elem_of_cons, elem_of_nil in Hin1, Hin2.
  destruct_or! Hin1; subst op1; try done; injection H1 as <-;
    destruct_or! Hin2; subst op2; try done; discriminate H2.
Qed.

Lemma fieldFilterOperator_injective_witness : ">=" = ">=".
Proof.
  apply (fieldFilterOperator_injective ">=" ">=" querypb.Filter_Field_GREATER_THAN_OR_EQUAL_TO);
    reflexivity.
Defined.

(** ** Aggregates: request and response keyed by name *)

(** X14. [aggregates.proto] keeps the caller's names: it succeeds exactly
    when every aggregate is valid, and the wire map then has the same keys,
    each holding the serialization of the aggregate under that key. *)
Theorem aggregates_proto_keyed (as_ : gmap string Aggregate) :
  (map_Forall (λ _ a, Aggregate_valid a = true) as_ ↔ ∃ m, aggregates_proto as_ = Ok m) ∧
  ∀ m, aggregates_proto as_ = Ok m →
       dom m = dom as_ ∧
       ∀ k a, as_ !! k = Some a → ∃ pa, m !! k = Some pa ∧ Aggregate_proto a = Ok pa.
Proof.
  pose proof (traverse_traversed Aggregate_proto as_) as Ht.
  change (traverse _ _) with (aggregates_proto as_) in Ht.
  destruct Aggregate_wellBehaved as (_ & _ & Hok). split.
  - split.
    + intros Hall. apply (traverse_Ok Aggregate_proto as_).
      intros k a Hk. apply Hok. eauto.
    + intros [m Hm]. rewrite Hm in Ht. intros k a Hk. specialize (Ht k).
      rewrite Hk in Ht. destruct Ht as (pa & Hpa & _). apply Hok. eauto.
  - intros m Hm. rewrite Hm in Ht. simpl in Ht. split.
    + apply set_eq. intros k. rewrite !elem_of_dom. specialize (Ht k).
      destruct (as_ !! k) as [a|].
      * destruct Ht as (pa & _ & ->). split; eauto.
      * rewrite Ht. split; intros [? ?]; discriminate.
    + intros k a Hk. specialize (Ht k). rewrite Hk in Ht.
      destruct Ht as (pa & Hpa & Hm'). eauto.
Qed.

Lemma map_fold_insert_fmap {A B : Type} (g : A → B) (m : gmap string A) :
  map_fold (λ k v (acc : gmap string B), <[k := g v]> acc) ∅ m = g <$> m.
Proof.
  apply (map_fold_weak_ind (λ r m, r = g <$> m)).
  - by rewrite fmap_empty.
  - intros i x m' r _ ->. by rewrite fmap_insert.
Qed.

(** The value stored for one aggregate response, when it is set. *)
Definition aggregateValue (v : aggpb.AggregateResponse) : option AggregateValue :=
  match v with
  | aggpb.AggregateResponse_Count_ Counts => Some (CountResponse Counts)
  | aggpb.AggregateResponse_Buckets_ Buckets =>
      Some (BucketsResponse
              ((λ bv, mkBucketResponse (aggpb.Name bv) (aggpb.Count bv)) <$> Buckets))
  | aggpb.AggregateResponse_Metric_ Value => Some (MetricValue Value)
  | aggpb.AggregateResponse_unset => None
  end.

(** X15. [processAggregatesResponse] answers under the names of the
    response: the result holds, under each key whose response is set, the
    counts, the buckets (each with its name and count) or the metric value of
    that response, and nothing under any other key. *)
Theorem processAggregatesResponse_lookup (pbResp : gmap string aggpb.AggregateResponse)
    (k : string) :
  processAggregatesResponse pbResp !! k = pbResp !! k ≫= aggregateValue.
Proof.
  revert k. unfold processAggregatesResponse.
  apply (map_fold_weak_ind (λ (out : gmap string AggregateValue) m,
                              ∀ k, out !! k = m !! k ≫= aggregateValue)).
  - intros k. by rewrite !lookup_empty.
  - intros i v m out Hi IH k. destruct (decide (i = k)) as [->|Hne].
    + rewrite lookup_insert_eq. simpl. destruct v; simpl.
      * by rewrite lookup_insert_eq, (map_fold_insert_fmap id), map_fmap_id.
      * by rewrite lookup_insert_eq, (map_fold_insert_fmap
             (λ bv, mkBucketResponse (aggpb.Name bv) (aggpb.Count bv))).
      * by rewrite lookup_insert_eq.
      * by rewrite IH, Hi.
    + rewrite (lookup_insert_ne m) by done. rewrite <- IH.
      destruct v; by rewrite ?lookup_insert_ne by done.
Qed.

Lemma aggregates_proto_keyed_witness :
  ∃ m, aggregates_proto (<["total_count" := CountAggregate "category"]> ∅) = Ok m ∧
       dom m = dom (<["total_count" := CountAggregate "category"]> ∅ : gmap string Aggregate) ∧
       ∃ pa, m !! "total_count" = Some pa ∧
             Aggregate_proto (CountAggregate "category") = Ok pa.
Proof.
  destruct (aggregates_proto_keyed (<["total_count" := CountAggregate "category"]> ∅))
    as [Hvalid Hkeys].
  destruct (proj1 Hvalid) as [m Hm].
  - intros k a. destruct (decide (k = "total_count")) as [->|Hne].
    + rewrite lookup_insert_eq. by intros [= <-].
    + rewrite lookup_insert_ne by done. by rewrite lookup_empty.
  - exists m. split; [exact Hm|]. destruct (Hkeys m Hm) as [Hdom Hlook].
    split; [exact Hdom|]. apply Hlook. by rewrite lookup_insert_eq.
Defined.

(** ** The search request *)

(** A marshalling step succeeds. *)
Definition succeeds {A : Type} (r : result A) : Prop := ∃ a, r = Ok a.

Lemma collect_succeeds {A B : Type} (f : A → result B) (valid : A → bool) (xs : list A) :
  (∀ x, valid x = true ↔ succeeds (f x)) →
  forallb valid xs = true ↔ succeeds (collect f xs).
Proof.
  intros Hf. split.
  - intros Hall. apply collect_Ok, Forall_forall. intros x Hx%list_elem_of_In.
    apply Hf. rewrite forallb_forall in Hall. auto.
  - intros [ys Hys]. apply forallb_forall. intros x [i Hi]%list_elem_of_In%list_elem_of_lookup.
    destruct (collect_lookup f _ _ _ _ Hys Hi) as (y & _ & Hy). apply Hf. by exists y.
Qed.

(** A request built from valid inputs: valid boosts, a nil or valid
    filter, no nil sort, valid aggregates and a known tracking type. *)
Definition Request_valid (r : Request) : bool :=
  forallb FieldBoost_valid (FieldBoosts (ReqIndexQuery r)) &&
  forallb InstanceBoost_noNil (InstanceBoosts (ReqIndexQuery r)) &&
  forallb (λ ab, FieldBoost_valid (boost ab)) (FQFieldBoosts (ReqFeatureQuery r)) &&
  match ReqFilter r with nilFilter => true | f => Filter_valid f end &&
  forallb Sort_noNil (ReqSort r) &&
  bool_decide (map_Forall (λ _ a, Aggregate_valid a = true) (Aggregates r)) &&
  Tracking_valid (ReqTracking r).

Lemma IndexQuery_proto_succeeds q :
  forallb FieldBoost_valid (FieldBoosts q) && forallb InstanceBoost_noNil (InstanceBoosts q)
    = true ↔ succeeds (IndexQuery_proto q).
Proof.
  rewrite andb_true_iff.
  rewrite (collect_succeeds FieldBoost_proto FieldBoost_valid)
    by apply FieldBoost_wellBehaved.
  rewrite (collect_succeeds InstanceBoost_proto InstanceBoost_noNil)
    by apply InstanceBoost_wellBehaved.
  unfold IndexQuery_proto, fieldBoosts_proto, instanceBoosts_proto, succeeds. split.
  - intros [[a ->] [b ->]]. by eexists.
  - intros [iq H]. destruct (collect FieldBoost_proto _); try discriminate.
    destruct (collect InstanceBoost_proto _); try discriminate. eauto.
Qed.

Lemma FeatureQuery_proto_succeeds q :
  forallb (λ ab, FieldBoost_valid (boost ab)) (FQFieldBoosts q) = true ↔
  succeeds (FeatureQuery_proto q).
Proof.
  rewrite (collect_succeeds FeatureFieldBoost_proto (λ ab, FieldBoost_valid (boost ab)))
    by apply FeatureFieldBoost_wellBehaved.
  unfold FeatureQuery_proto, featureFieldBoosts_proto, succeeds. split.
  - intros [a ->]. by eexists.
  - intros [fq H]. destruct (collect FeatureFieldBoost_proto _); try discriminate. eauto.
Qed.

Lemma aggregates_proto_succeeds (as_ : gmap string Aggregate) :
  map_Forall (λ _ a, Aggregate_valid a = true) as_ ↔ succeeds (aggregates_proto as_).
Proof.
  pose proof (traverse_traversed Aggregate_proto as_) as Ht.
  change (traverse _ _) with (aggregates_proto as_) in Ht.
  destruct Aggregate_wellBehaved as (_ & _ & Hok). split.
  - intros Hall. apply (traverse_Ok Aggregate_proto as_).
    intros k a Hk. apply Hok. eauto.
  - intros [m Hm]. rewrite Hm in Ht. intros k a Hk. specialize (Ht k).
    rewrite Hk in Ht. destruct Ht as (pa & Hpa & _). apply Hok. eauto.
Qed.

(** X16. [Request.proto] succeeds exactly for the requests built from
    valid inputs: every field boost and feature boost valid, no nil instance
    boost or sort, the filter nil or valid, every aggregate valid and the
    tracking type one of the three constants. *)
Theorem Request_proto_succeeds (r : Request) :
  Request_valid r = true ↔ ∃ pr, Request_proto r = Ok pr.
Proof.
  unfold Request_valid. rewrite !andb_true_iff, bool_decide_eq_true.
  rewrite <- andb_true_iff, IndexQuery_proto_succeeds, FeatureQuery_proto_succeeds.
  rewrite (collect_succeeds Sort_proto Sort_noNil) by apply Sort_wellBehaved.
  rewrite aggregates_proto_succeeds.
  rewrite (proj2 (proj2 Tracking_wellBehaved) (ReqTracking r)).
  assert (match ReqFilter r with nilFilter => true | f => Filter_valid f end = true ↔
          succeeds match ReqFilter r with
                   | nilFilter => Ok None
                   | f => pf ← Filter_proto f; Ok (Some pf)
                   end) as ->.
  { destruct (ReqFilter r) eqn:Ef; [split; [by eexists|done]|..];
      rewrite Filter_valid_Ok; (split; intros [pf H];
        [rewrite H; by eexists
        |match type of H with context [Filter_proto ?f] =>
           destruct (Filter_proto f); try discriminate; by eexists end]). }
  unfold Request_proto, sorts_proto, succeeds. split.
  - intros ((((([iq ->] & [fq ->]) & [filter ->]) & [sts ->]) & [ags ->]) & [tr ->]).
    by eexists.
  - intros [pr H].
    destruct (IndexQuery_proto _); try discriminate.
    destruct (FeatureQuery_proto _); try discriminate.
    simpl in H. destruct (match ReqFilter r with nilFilter => _ | _ => _ end);
      try discriminate.
    destruct (collect Sort_proto _); try discriminate.
    destruct (aggregates_proto _); try discriminate.
    destruct (Tracking_proto _); try discriminate.
    repeat split; eauto.
Qed.

Lemma Request_proto_succeeds_witness : ∃ pr, Request_proto exampleRequest = Ok pr.
Proof.
  apply (proj1 (Request_proto_succeeds exampleRequest)). vm_compute. reflexivity.
Defined.

Lemma bind_Some_ne_None {A : Type} (m : result A) :
  (pf ← m; Ok (Some pf)) ≠ Ok None.
Proof. by destruct m. Qed.

Lemma int32_id (x : Z) : -2 ^ 31 ≤ x < 2 ^ 31 → int32 x = x.
Proof. intros H. unfold int32. rewrite Z.mod_small; lia. Qed.

Lemma int32_range (x : Z) : -2 ^ 31 ≤ int32 x < 2 ^ 31.
Proof.
  unfold int32. pose proof (Z.mod_pos_bound (x + 2 ^ 31) (2 ^ 32)). lia.
Qed.

(** X17. What the wire request carries when [Request.proto] succeeds: the
    offset and the limit as 32-bit integers (unchanged when they fit in 32
    bits), the requested fields, one transform per transform in order, the
    weighted bodies followed by the free text with weight 1 when the text is
    not empty, and a filter exactly when the request's filter is not nil. *)
Theorem Request_proto_carries (r : Request) (pr : apipb.SearchRequest) :
  Request_proto r = Ok pr →
  (-2 ^ 31 ≤ Offset r < 2 ^ 31 → querypb.Offset (apipb.SearchRequest_ pr) = Offset r) ∧
  (-2 ^ 31 ≤ Limit r < 2 ^ 31 → querypb.Limit (apipb.SearchRequest_ pr) = Limit r) ∧
  -2 ^ 31 ≤ querypb.Offset (apipb.SearchRequest_ pr) < 2 ^ 31 ∧
  -2 ^ 31 ≤ querypb.Limit (apipb.SearchRequest_ pr) < 2 ^ 31 ∧
  querypb.Fields (apipb.SearchRequest_ pr) = Fields r ∧
  querypb.Identifier <$> querypb.Transforms (apipb.SearchRequest_ pr) = Transforms r ∧
  querypb.IQBody (querypb.IndexQuery (apipb.SearchRequest_ pr))
    = (Body_proto <$> IQBody (ReqIndexQuery r)) ++
      (if decide (Text (ReqIndexQuery r) = "") then []
       else [querypb.mkBody (Text (ReqIndexQuery r)) float_one]) ∧
  (ReqFilter r = nilFilter ↔ querypb.Filter_ (apipb.SearchRequest_ pr) = None).
Proof.
  unfold Request_proto. intros H.
  destruct (IndexQuery_proto (ReqIndexQuery r)) as [iq| |] eqn:Eiq; try discriminate.
  destruct (FeatureQuery_proto _); try discriminate. simpl in H.
  destruct (match ReqFilter r with nilFilter => _ | _ => _ end) as [filter| |] eqn:Ef;
    try discriminate.
  destruct (sorts_proto _); try discriminate.
  destruct (aggregates_proto _); try discriminate.
  destruct (Tracking_proto _); try discriminate.
  simpl in H. injection H as <-. simpl.
  split; [apply int32_id|]. split; [apply int32_id|].
  split; [apply int32_range|]. split; [apply int32_range|]. split; [done|]. split.
  - rewrite <- list_fmap_compose. apply list_fmap_id.
  - split.
    + unfold IndexQuery_proto in Eiq.
      destruct (fieldBoosts_proto _); try discriminate.
      destruct (instanceBoosts_proto _); try discriminate.
      simpl in Eiq. injection Eiq as <-. simpl.
      case_decide; [by rewrite app_nil_r|]. by rewrite map_app.
    + destruct (ReqFilter r) eqn:Er.
      * injection Ef as <-. done.
      * split; [done|]. intros ->. by apply bind_Some_ne_None in Ef.
      * split; [done|]. intros ->. by apply bind_Some_ne_None in Ef.
      * split; [done|]. intros ->. by apply bind_Some_ne_None in Ef.
Qed.

Lemma Request_proto_carries_witness :
  ∃ pr, Request_proto exampleRequest = Ok pr ∧
        querypb.Limit (apipb.SearchRequest_ pr) = 10 ∧
        querypb.IQBody (querypb.IndexQuery (apipb.SearchRequest_ pr))
          = [querypb.mkBody "shoes" float_one].
Proof.
  eexists. split; [vm_compute; reflexivity|].
  match goal with
  | |- context [apipb.SearchRequest_ ?pr] =>
      destruct (Request_proto_carries exampleRequest pr eq_refl)
        as (_ & Hlimit & _ & _ & _ & _ & Hbody & _)
  end.
  split.
  - apply Hlimit. simpl. lia.
  - exact Hbody.
Defined.

(** ** Analyse and learn *)

Lemma calls_bind {A B : Type} (h : handler) (m : rpc A) (f : A → rpc B) :
  calls h (m ≫= f) =
  calls h m ++ match run h m with Some a => calls h (f a) | None => [] end.
Proof.
  unfold mbind, rpc_mbind. induction m as [a| |X e k IH]; simpl; [done|done|].
  by rewrite IH.
Qed.

Lemma adminRun_bind {A B : Type} (h : adminHandler) (m : admin A) (f : A → admin B) :
  adminRun h (admin_bind m f) = adminRun h m ≫= (λ a, adminRun h (f a)).
Proof. induction m as [a| |X e k IH]; simpl; auto. Qed.

(** X18. [Analyse], [Learn] and [Mutate] are their Multi counterparts on
    the one-element batch: the first result (for [Analyse]) when the batch
    returned no error, the error at index 0 of a [MultiError], and any other
    error unchanged. *)
Theorem Analyse_Learn_Mutate_of_one (c : Client) (k : option Key) :
  (∀ (h : handler) r,
     run h (Analyse c k r) = run h (AnalyseMulti c [k] r) ≫= firstOf []) ∧
  (∀ (h : handler) r count score,
     run h (Learn c k r count score)
       = run h (LearnMulti c [k] r [count] [score]) ≫= firstError) ∧
  (∀ (h : adminHandler) m,
     adminRun h (Mutate c k m)
       = adminRun h (MutateMulti c [mkRecordMutation k m]) ≫= firstError).
Proof.
  repeat split; intros.
  - unfold Analyse. rewrite run_bind.
    destruct (run h (AnalyseMulti c [k] r)) as [[out [[]|]]|]; simpl; try done.
    + by destruct es.
    + by destruct out.
  - unfold Learn. rewrite run_bind.
    destruct (run h (LearnMulti c [k] r [count] [score])) as [[[]|]|]; simpl; try done.
    by destruct es.
  - unfold Mutate. rewrite adminRun_bind.
    destruct (adminRun h (MutateMulti c [mkRecordMutation k m])) as [[[]|]|]; simpl;
      try done.
    by destruct es.
Qed.

(** X19. [LearnMulti] learns nothing when the analysis reports an error:
    if [AnalyseMulti] returns an error (a failure of marshalling or of the
    transport, or the [MultiError] of a partial failure), [LearnMulti]
    returns that error and issues no remote call besides those of the
    analysis, so no score is incremented. *)
Theorem LearnMulti_analysis_error (h : handler) (c : Client) (ks : list (option Key))
    (r : Request) (counts : list Z) (scores : list float)
    (ars : list (list string)) (err : error) :
  length ks = length counts → length ks = length scores →
  run h (AnalyseMulti c ks r) = Some (ars, Some err) →
  run h (LearnMulti c ks r counts scores) = Some (Some err) ∧
  calls h (LearnMulti c ks r counts scores) = calls h (AnalyseMulti c ks r).
Proof.
  intros Hc Hs Ha. unfold LearnMulti. rewrite decide_False by tauto. split.
  - by rewrite run_bind, Ha.
  - by rewrite calls_bind, Ha, app_nil_r.
Qed.

Lemma LearnMulti_analysis_error_witness :
  run secondNotFound (LearnMulti exampleClient exampleKeys exampleRequest [1; 2; 3]
                        [float_one; float_one; float_one])
    = Some (Some (MultiError [None; Some ErrNoSuchRecord; None])) ∧
  calls secondNotFound (LearnMulti exampleClient exampleKeys exampleRequest [1; 2; 3]
                          [float_one; float_one; float_one])
    = calls secondNotFound (AnalyseMulti exampleClient exampleKeys exampleRequest).
Proof.
  apply (LearnMulti_analysis_error secondNotFound exampleClient exampleKeys exampleRequest
           [1; 2; 3] [float_one; float_one; float_one] []).
  - reflexivity.
  - reflexivity.
  - vm_compute. reflexivity.
Defined.

Lemma keysScores_Some (pbks : list enginepb.Key) (ars : list (list string))
    (counts : list Z) (scores : list float) :
  ∀ i,
    (i + length pbks ≤ length ars)%nat →
    (i + length pbks ≤ length counts)%nat →
    (i + length pbks ≤ length scores)%nat →
    ∃ kss, keysScores i pbks ars counts scores = Some kss ∧
           length kss = length pbks ∧
           ∀ j k t cnt sc,
             pbks !! j = Some k → ars !! (i + j)%nat = Some t →
             counts !! (i + j)%nat = Some cnt → scores !! (i + j)%nat = Some sc →
             kss !! j = Some (recpb.mkKeyScores k [recpb.mkScore t (int32 cnt) sc]).
Proof.
  induction pbks as [|k pbks IH]; intros i Ha Hc Hs; simpl in *.
  - exists []. split; [done|]. split; [done|]. intros j ? ? ? ? Hj. done.
  - destruct (lookup_lt_is_Some_2 ars i) as [t Ht]; [lia|].
    destruct (lookup_lt_is_Some_2 counts i) as [cnt Hcnt]; [lia|].
    destruct (lookup_lt_is_Some_2 scores i) as [sc Hsc]; [lia|].
    rewrite Ht, Hcnt, Hsc.
    destruct (IH (S i)) as (kss & -> & Hlen & Hkss); [lia..|].
    eexists. split; [done|]. split; [simpl; lia|].
    intros [|j] k' t' cnt' sc' Hk' Ht' Hcnt' Hsc'; simpl in *.
    + rewrite Nat.add_0_r in *. congruence.
    + apply (Hkss j k' t' cnt' sc'); try done;
        by replace (S (i + j))%nat with (i + S j)%nat by lia.
Qed.

Lemma keysScores_None (pbks : list enginepb.Key) (ars : list (list string))
    (counts : list Z) (scores : list float) :
  ∀ i, (i ≤ length ars)%nat → (length ars < i + length pbks)%nat →
       keysScores i pbks ars counts scores = None.
Proof.
  induction pbks as [|k pbks IH]; intros i Hi Ha; simpl in *; [lia|].
  destruct (ars !! i) as [t|] eqn:Ht; [|done].
  destruct (counts !! i); [|done]. destruct (scores !! i); [|done].
  apply lookup_lt_Some in Ht. rewrite IH; [done|lia..].
Qed.

Lemma run_AnalyseMulti (h : handler) c ks r pr pbks aresp :
  Request_proto r = Ok pr →
  keys_proto ks = Ok pbks →
  h _ (Query_Analyse (newContext c)
         (querypb.mkAnalyseRequest (apipb.SearchRequest_ pr) pbks)) = Reply aresp →
  run h (AnalyseMulti c ks r)
    = Some (resp.Terms aresp, multiErrorFromRecordStatusProto (resp.AnalyseStatus aresp)) ∧
  calls h (AnalyseMulti c ks r)
    = [existT _ (Query_Analyse (newContext c)
                   (querypb.mkAnalyseRequest (apipb.SearchRequest_ pr) pbks))].
Proof.
  intros Hr Hks Hh. unfold AnalyseMulti. rewrite Hr, Hks. simpl. by rewrite Hh.
Qed.

(** X20. The successful path of [LearnMulti]: with as many counts and
    scores as keys, a request and keys that marshal, and an analysis that
    succeeds with all statuses OK and a term list for every key, [LearnMulti]
    makes two remote calls, the analysis and then one increment whose
    request has one entry per key, in order, made of the wire key, the term
    list of that key, its count as a 32-bit integer and its score; it returns
    the aggregate error of the increment's statuses, or the transport's
    error. *)
Theorem LearnMulti_increments (h : handler) (c : Client) (ks : list (option Key))
    (r : Request) (counts : list Z) (scores : list float)
    (pr : apipb.SearchRequest) (pbks : list enginepb.Key) (aresp : resp.Analyse) :
  length ks = length counts → length ks = length scores →
  Request_proto r = Ok pr →
  keys_proto ks = Ok pbks →
  h _ (Query_Analyse (newContext c)
         (querypb.mkAnalyseRequest (apipb.SearchRequest_ pr) pbks)) = Reply aresp →
  allOK (resp.AnalyseStatus aresp) →
  (length ks ≤ length (resp.Terms aresp))%nat →
  ∃ kss,
    length kss = length ks ∧
    (∀ i k t cnt sc,
       pbks !! i = Some k → resp.Terms aresp !! i = Some t →
       counts !! i = Some cnt → scores !! i = Some sc →
       kss !! i = Some (recpb.mkKeyScores k [recpb.mkScore t (int32 cnt) sc])) ∧
    calls h (LearnMulti c ks r counts scores)
      = [existT _ (Query_Analyse (newContext c)
                     (querypb.mkAnalyseRequest (apipb.SearchRequest_ pr) pbks));
         existT _ (Score_Increment (newContext c) (recpb.mkIncrementRequest kss))] ∧
    run h (LearnMulti c ks r counts scores)
      = Some match h _ (Score_Increment (newContext c) (recpb.mkIncrementRequest kss)) with
             | Reply resp => multiErrorFromRecordStatusProto (resp.Status resp)
             | Fault err => Some err
             end.
Proof.
  intros Hc Hs Hr Hks Hh Hok Hterms.
  destruct (run_AnalyseMulti h c ks r pr pbks aresp Hr Hks Hh) as [Hrun Hcalls].
  rewrite (multiErrorFromRecordStatusProto_allOK _ Hok) in Hrun.
  pose proof (collect_length _ _ _ Hks) as Hlen.
  destruct (keysScores_Some pbks (resp.Terms aresp) counts scores 0)
    as (kss & Hkss & Hklen & Hentries); [simpl; lia..|].
  exists kss. split; [lia|]. split; [exact Hentries|].
  unfold LearnMulti. rewrite decide_False by tauto. split.
  - rewrite calls_bind, Hcalls, Hrun. simpl. rewrite Hks. simpl. rewrite Hkss. simpl.
    by destruct (h _ (Score_Increment _ _)).
  - rewrite run_bind, Hrun. simpl. rewrite Hks. simpl. rewrite Hkss. simpl.
    by destruct (h _ (Score_Increment _ _)).
Qed.

(** A service that analyses and increments without failure. *)
Definition learns : handler :=
  service (Fault ErrNoSuchRecord) (Fault ErrNoSuchRecord) (Fault ErrNoSuchRecord)
          (Fault ErrNoSuchRecord)
          (Reply (resp.mkAnalyse [["shoe"]; []; ["shoe"; "red"]] [statusOK; statusOK; statusOK]))
          (Reply (resp.mkStatuses [statusOK; statusOK; statusOK])).

Lemma allOK_three : allOK [statusOK; statusOK; statusOK].
Proof. intros [|[|[|j]]] s Hs; try done; by injection Hs as <-. Qed.

Lemma LearnMulti_increments_witness :
  ∃ kss,
    length kss = 3%nat ∧
    run learns (LearnMulti exampleClient exampleKeys exampleRequest [1; 2; 3]
                  [float_one; float_one; float_one])
    = Some match learns _ (Score_Increment (newContext exampleClient)
                             (recpb.mkIncrementRequest kss)) with
           | Reply resp => multiErrorFromRecordStatusProto (resp.Status resp)
           | Fault err => Some err
           end.
Proof.
  edestruct (LearnMulti_increments learns exampleClient exampleKeys exampleRequest
               [1; 2; 3] [float_one; float_one; float_one])
    as (kss & Hlen & _ & _ & Hrun).
  - reflexivity.
  - reflexivity.
  - vm_compute. reflexivity.
  - vm_compute. reflexivity.
  - reflexivity.
  - exact allOK_three.
  - simpl. lia.
  - exists kss. split; [exact Hlen|exact Hrun].
Defined.

(** X21. The one reply [LearnMulti] does not check for: under the same
    conditions but with fewer term lists in the analysis than keys,
    [LearnMulti] panics on indexing the term lists. *)
Theorem LearnMulti_short_analysis_panics (h : handler) (c : Client)
    (ks : list (option Key)) (r : Request) (counts : list Z) (scores : list float)
    (pr : apipb.SearchRequest) (pbks : list enginepb.Key) (aresp : resp.Analyse) :
  length ks = length counts → length ks = length scores →
  Request_proto r = Ok pr →
  keys_proto ks = Ok pbks →
  h _ (Query_Analyse (newContext c)
         (querypb.mkAnalyseRequest (apipb.SearchRequest_ pr) pbks)) = Reply aresp →
  allOK (resp.AnalyseStatus aresp) →
  (length (resp.Terms aresp) < length ks)%nat →
  run h (LearnMulti c ks r counts scores) = None.
Proof.
  intros Hc Hs Hr Hks Hh Hok Hterms.
  destruct (run_AnalyseMulti h c ks r pr pbks aresp Hr Hks Hh) as [Hrun _].
  rewrite (multiErrorFromRecordStatusProto_allOK _ Hok) in Hrun.
  pose proof (collect_length _ _ _ Hks) as Hlen.
  unfold LearnMulti. rewrite decide_False by tauto.
  rewrite run_bind, Hrun. simpl. rewrite Hks. simpl.
  rewrite keysScores_None; [done|lia|simpl; lia].
Qed.

Lemma LearnMulti_short_analysis_panics_witness :
  run (service (Fault ErrNoSuchRecord) (Fault ErrNoSuchRecord) (Fault ErrNoSuchRecord)
               (Fault ErrNoSuchRecord) (Reply (resp.mkAnalyse [["shoe"]] []))
               (Reply (resp.mkStatuses [])))
      (LearnMulti exampleClient exampleKeys exampleRequest [1; 2; 3]
         [float_one; float_one; float_one])
  = None.
Proof.
  eapply (LearnMulti_short_analysis_panics _ exampleClient exampleKeys exampleRequest
            [1; 2; 3] [float_one; float_one; float_one]).
  - reflexivity.
  - reflexivity.
  - vm_compute. reflexivity.
  - vm_compute. reflexivity.
  - reflexivity.
  - intros j s Hs. destruct j; discriminate Hs.
  - simpl. lia.
Defined.

(** ** Schema: types and fields *)

(** The five field types. *)
Definition fieldTypes : list string :=
  [schema.TypeString; schema.TypeInteger; schema.TypeFloat; schema.TypeBoolean;
   schema.TypeTimestamp].

Lemma Type_proto_known_unknown :
  (∀ t, t ∈ fieldTypes →
        ∃ pt, schema.Type_proto t = (pt, None) ∧ schema.typeFromProto pt = (t, None)) ∧
  (∀ t, t ∉ fieldTypes →
        schema.Type_proto t
          = (schemapb.Field_STRING, Some (errorString ("unknown type: '" +:+ t +:+ "'")))).
Proof.
  unfold fieldTypes. split.
  - intros t. rewrite !elem_of_cons, elem_of_nil. intros H.
    destruct_or!; subst; try done; eexists; split; reflexivity.
  - intros t Ht. unfold schema.Type_proto.
    repeat (case_decide as E; [exfalso; apply Ht; rewrite E; set_solver|clear E]).
    reflexivity.
Qed.

(** X22. The five field types and the five wire types correspond one to
    one: [Type.proto] followed by [typeFromProto] gives back the type, and
    [typeFromProto] followed by [Type.proto] gives back the wire type.  Any
    other type string (the names are upper case) is refused by [Type.proto]
    with "unknown type: 't'", and any other wire number by [typeFromProto]. *)
Theorem Type_round_trip :
  (∀ t, t ∈ fieldTypes →
        ∃ pt, schema.Type_proto t = (pt, None) ∧ schema.typeFromProto pt = (t, None)) ∧
  (∀ pt, (∀ n, pt ≠ schemapb.Field_other n) →
         ∃ t, t ∈ fieldTypes ∧ schema.typeFromProto pt = (t, None) ∧
              schema.Type_proto t = (pt, None)) ∧
  (∀ t, t ∉ fieldTypes →
        schema.Type_proto t
          = (schemapb.Field_STRING, Some (errorString ("unknown type: '" +:+ t +:+ "'")))) ∧
  (∀ n, ∃ e, schema.typeFromProto (schemapb.Field_other n) = (schema.TypeString, Some e)).
Proof.
  split; [apply Type_proto_known_unknown|]. split; [|split].
  - intros pt Hpt. unfold fieldTypes. destruct pt; try (by destruct (Hpt n));
      eexists; (split; [|split; reflexivity]); set_solver.
  - apply Type_proto_known_unknown.
  - intros n. by eexists.
Qed.

Lemma Type_round_trip_witness :
  (∃ pt, schema.Type_proto "TIMESTAMP" = (pt, None) ∧
         schema.typeFromProto pt = ("TIMESTAMP", None)) ∧
  schema.Type_proto "string"
    = (schemapb.Field_STRING, Some (errorString "unknown type: 'string'")).
Proof.
  destruct Type_round_trip as (Hto & _ & Hunknown & _). split.
  - apply Hto. apply (bool_decide_unpack ("TIMESTAMP" ∈ fieldTypes)). vm_compute. exact I.
  - apply (Hunknown "string").
    apply (bool_decide_unpack ("string" ∉ fieldTypes)). vm_compute. exact I.
Defined.

Lemma Type_proto_typeFromProto t pt :
  schema.Type_proto t = (pt, None) → schema.typeFromProto pt = (t, None).
Proof.
  unfold schema.Type_proto. repeat case_decide; intros [= <-]; by subst.
Qed.

Lemma Field_proto_fieldFromProto f pf :
  schema.Field_proto f = Ok pf → schema.fieldFromProto pf = Ok f.
Proof.
  unfold schema.Field_proto, schema.fieldFromProto.
  destruct (schema.Type_proto (schema.Type_ f)) as [pt [e|]] eqn:E; [done|].
  intros [= <-]. simpl. rewrite (Type_proto_typeFromProto _ _ E). by destruct f.
Qed.

(** A service for the schema and mutate procedures that gives fixed replies. *)
Definition adminService (mutate : reply resp.Statuses) (fields : reply schemapb.Fields)
    (add mutateField : reply resp.Statuses) : adminHandler :=
  λ X e,
    match e in adminE X return X with
    | Store_Mutate _ _ => mutate
    | Schema_GetFields _ => fields
    | Schema_AddFields _ _ => add
    | Schema_MutateField _ _ => mutateField
    end.

(** X23. Fields survive the wire: when a list of fields marshals (as
    [Schema.Add] sends it) and the service returns that wire list,
    [Schema.Fields] returns the same fields, in order, with a nil error. *)
Theorem Schema_Fields_round_trip (h : adminHandler) (c : Client) (fs : list schema.Field)
    (pbfs : schemapb.Fields) :
  schema.fields_proto fs = Ok pbfs →
  h _ (Schema_GetFields (newContext c)) = Reply pbfs →
  adminRun h (Schema_Fields c) = Some (fs, None).
Proof.
  unfold schema.fields_proto. intros Hfs Hh.
  destruct (collect schema.Field_proto fs) as [l| |] eqn:El; try discriminate.
  injection Hfs as <-.
  assert (collect schema.fieldFromProto l = Ok fs) as Hback.
  { clear Hh. apply collect_Forall2. apply collect_Forall2 in El.
    induction El as [|f pf fs l Hf _ IH]; [constructor|].
    constructor; [by apply Field_proto_fieldFromProto|done]. }
  unfold Schema_Fields. simpl. rewrite Hh. simpl. by rewrite Hback.
Qed.

Definition exampleFields : list schema.Field :=
  [schema.mkField "title" "the title" "STRING" false true true false;
   schema.mkField "price" "" "FLOAT" false false false false].

Lemma Schema_Fields_round_trip_witness :
  adminRun (adminService (Fault ErrNoSuchRecord)
              (Reply (schemapb.mkFields
                        [schemapb.mkField "title" "the title" schemapb.Field_STRING
                           false true true false;
                         schemapb.mkField "price" "" schemapb.Field_FLOAT
                           false false false false]))
              (Fault ErrNoSuchRecord) (Fault ErrNoSuchRecord))
           (Schema_Fields exampleClient)
  = Some (exampleFields, None).
Proof.
  eapply (Schema_Fields_round_trip _ exampleClient exampleFields).
  - reflexivity.
  - reflexivity.
Defined.

(** X24. One field of an unknown wire type hides the whole schema: when the
    service returns a field whose type is not one of the five,
    [Schema.Fields] returns no field at all, and an "unknown type" error. *)
Theorem Schema_Fields_unknown_type (h : adminHandler) (c : Client)
    (pbfs : schemapb.Fields) (f : schemapb.Field) (n : Z) :
  h _ (Schema_GetFields (newContext c)) = Reply pbfs →
  f ∈ schemapb.Fields_ pbfs →
  schemapb.Type_ f = schemapb.Field_other n →
  ∃ m, adminRun h (Schema_Fields c)
       = Some ([], Some (errorString ("unknown type: '" +:+ string_of_rune m +:+ "'"))).
Proof.
  intros Hh Hf Ht. unfold Schema_Fields. simpl. rewrite Hh. simpl.
  destruct (collect schema.fieldFromProto (schemapb.Fields_ pbfs)) as [out|e|] eqn:E.
  - apply list_elem_of_lookup in Hf as [i Hi].
    destruct (collect_lookup _ _ _ _ _ E Hi) as (y & _ & Hy).
    unfold schema.fieldFromProto in Hy. rewrite Ht in Hy. discriminate.
  - apply collect_Err in E as (f' & _ & Hf'). unfold schema.fieldFromProto in Hf'.
    destruct (schemapb.Type_ f') as [| | | | |m]; try discriminate.
    injection Hf' as <-. by exists m.
  - apply collect_Panic in E as (f' & _ & Hf'). unfold schema.fieldFromProto in Hf'.
    by destruct (schemapb.Type_ f').
Qed.

Lemma Schema_Fields_unknown_type_witness :
  ∃ m, adminRun (adminService (Fault ErrNoSuchRecord)
                   (Reply (schemapb.mkFields
                             [schemapb.mkField "title" "" schemapb.Field_STRING
                                false true true false;
                              schemapb.mkField "loc" "" (schemapb.Field_other 9)
                                false false false false]))
                   (Fault ErrNoSuchRecord) (Fault ErrNoSuchRecord))
                (Schema_Fields exampleClient)
       = Some ([], Some (errorString ("unknown type: '" +:+ string_of_rune m +:+ "'"))).
Proof.
  eapply (Schema_Fields_unknown_type _ exampleClient _
            (schemapb.mkField "loc" "" (schemapb.Field_other 9) false false false false) 9).
  - reflexivity.
  - simpl. set_solver.
  - reflexivity.
Defined.

Lemma multiErrorFromSchemaStatusProto_fold status out empty :
  foldl (λ '(out, empty) s,
           let err := schema.schemaStatusError s in
           (out ++ [err], if err is None then empty else false))
        (out, empty) status
  = (out ++ (schema.schemaStatusError <$> status),
     empty && forallb (λ s, bool_decide (schema.schemaStatusError s = None)) status).
Proof.
  revert out empty. induction status as [|s status IH]; intros out empty; simpl.
  - by rewrite app_nil_r, andb_true_r.
  - rewrite IH, <- app_assoc. simpl. f_equal.
    destruct (schema.schemaStatusError s) as [e|]; simpl.
    + by rewrite andb_false_r.
    + done.
Qed.

Lemma schemaStatusError_cases s :
  (uint32 (rpcpb.Code s) = codes.OK ∧ schema.schemaStatusError s = None) ∨
  (uint32 (rpcpb.Code s) ≠ codes.OK ∧
   schema.schemaStatusError s = Some (rpcError (uint32 (rpcpb.Code s)) (rpcpb.Message s))).
Proof. unfold schema.schemaStatusError. case_decide; [left|right]; done. Qed.

(** X25. The aggregate error of the schema calls has no case for NotFound:
    [multiErrorFromSchemaStatusProto] returns nil exactly when every status
    is OK, and otherwise a [MultiError] with one entry per status, nil for
    OK and a gRPC error with the code and message of the status for any other
    code, so [ErrNoSuchRecord] never appears in it. *)
Theorem multiErrorFromSchemaStatusProto_positional (status : list rpcpb.Status) :
  match schema.multiErrorFromSchemaStatusProto status with
  | None => ∀ s, s ∈ status → uint32 (rpcpb.Code s) = codes.OK
  | Some (MultiError me) =>
      me = schema.schemaStatusError <$> status ∧
      (Some ErrNoSuchRecord ∉ me) ∧
      ∃ i s, status !! i = Some s ∧ uint32 (rpcpb.Code s) ≠ codes.OK ∧
             me !! i = Some (Some (rpcError (uint32 (rpcpb.Code s)) (rpcpb.Message s)))
  | Some _ => False
  end.
Proof.
  unfold schema.multiErrorFromSchemaStatusProto.
  rewrite multiErrorFromSchemaStatusProto_fold. simpl.
  destruct (forallb _ status) eqn:E.
  - intros s Hs%list_elem_of_In. rewrite forallb_forall in E. apply E in Hs.
    apply bool_decide_eq_true_1 in Hs.
    destruct (schemaStatusError_cases s) as [[? _]|[_ ?]]; congruence.
  - split; [done|]. split.
    + intros (s & Hs & _)%list_elem_of_fmap.
      destruct (schemaStatusError_cases s) as [[_ ?]|[_ ?]]; congruence.
    + apply forallb_false_lookup in E as (i & s & Hi & Hs).
      apply bool_decide_eq_false_1 in Hs. exists i, s. split; [done|].
      destruct (schemaStatusError_cases s) as [[_ ?]|[Hc He]]; [done|].
      split; [done|]. by rewrite list_lookup_fmap, Hi, <- He.
Qed.

Example schema_NotFound_is_an_rpc_error :
  schema.multiErrorFromSchemaStatusProto [statusOK; statusNotFound]
  = Some (MultiError [None; Some (rpcError 5 "not found")]).
Proof. reflexivity. Qed.

(** ** Mutations *)

Lemma FieldMutation_proto_setField field value :
  supported value = true ↔ succeeds (FieldMutation_proto (setField field value)).
Proof.
  unfold succeeds. simpl. rewrite pbValueFromInterface_supported. split.
  - intros [v ->]. by eexists.
  - intros [w H]. destruct (pbValueFromInterface value); try discriminate. by eexists.
Qed.

(** X26. [SetFields] turns a map into one [SetField] per entry: as many
    mutations as entries, a mutation for a field and value exactly when the
    map holds that value under that field; and the mutations marshal exactly
    when every value of the map has a supported shape. *)
Theorem SetFields_entries (m : gmap string iface) :
  length (SetFields m) = size m ∧
  (∀ k v, SetField k v ∈ SetFields m ↔ m !! k = Some v) ∧
  (map_Forall (λ _ v, supported v = true) m ↔
   ∃ fms, fieldMutations_proto (SetFields m) = Ok fms).
Proof.
  unfold SetFields. split; [|split].
  - by rewrite length_fmap, length_map_to_list.
  - intros k v. rewrite list_elem_of_fmap. split.
    + intros ([k' v'] & [= -> ->] & Hin). by apply elem_of_map_to_list.
    + intros Hk. exists (k, v). split; [done|]. by apply elem_of_map_to_list.
  - unfold fieldMutations_proto. split.
    + intros Hall. apply collect_Ok, Forall_forall.
      intros fm (kv & -> & Hin)%list_elem_of_fmap. destruct kv as [k v].
      apply elem_of_map_to_list in Hin. apply (FieldMutation_proto_setField k v). eauto.
    + intros [fms Hfms] k v Hk.
      assert (SetField k v ∈ (λ kv, SetField kv.1 kv.2) <$> map_to_list m) as Hin.
      { apply list_elem_of_fmap. exists (k, v). split; [done|].
        by apply elem_of_map_to_list. }
      apply list_elem_of_lookup in Hin as [i Hi].
      destruct (collect_lookup _ _ _ _ _ Hfms Hi) as (y & _ & Hy).
      apply (FieldMutation_proto_setField k v). by exists y.
Qed.

Lemma SetFields_entries_witness :
  SetField "price" (Scalar (IntV int 5))
    ∈ SetFields (<["price" := Scalar (IntV int 5)]> (<["tags" := Strings ["a"]]> ∅)).
Proof.
  apply (proj1 (proj2 (SetFields_entries _)) "price" (Scalar (IntV int 5))).
  reflexivity.
Defined.

(** X27. A value that does not marshal stops [MutateMulti] before any
    remote call: setting a field of a record with a valid key to a value of
    an unsupported shape (nil included) returns "unsupported value: T", and
    the operation is a leaf of the call tree. *)
Theorem MutateMulti_unsupported_value (c : Client) (k : option Key) (field : string)
    (value : iface) :
  keyError k = None →
  supported value = false →
  MutateMulti c [mkRecordMutation k [SetField field value]]
    = Done (Some (errorString ("unsupported value: " +:+ fmt.T value))) ∧
  ∀ h : adminHandler,
    adminCalls h (MutateMulti c [mkRecordMutation k [SetField field value]]) = [].
Proof.
  intros Hk Hv. pose proof (Key_proto_keyError k) as Hkey. rewrite Hk in Hkey.
  destruct Hkey as (pbk & Hpbk & _).
  assert (MutateMulti c [mkRecordMutation k [SetField field value]]
          = Done (Some (errorString ("unsupported value: " +:+ fmt.T value)))) as ->.
  { unfold MutateMulti, recordMutations_proto. rewrite collect_cons.
    unfold RecordMutation_proto. cbn [MutationKey FieldMutations]. rewrite Hpbk.
    by destruct value. }
  done.
Qed.

Lemma MutateMulti_unsupported_value_witness :
  MutateMulti exampleClient [mkRecordMutation (NewKey "id" (Scalar (IntV int 1)))
                                              [SetField "price" Nil]]
    = Done (Some (errorString "unsupported value: <nil>")).
Proof.
  apply (MutateMulti_unsupported_value exampleClient (NewKey "id" (Scalar (IntV int 1)))
           "price" Nil); reflexivity.
Defined.

(** A schema mutation built from valid inputs: not nil, and a type mutation
    names one of the five types. *)
Definition Mutation_valid (m : schema.Mutation) : bool :=
  match m with
  | schema.nilMutation => false
  | schema.typeMutation t => bool_decide (t ∈ fieldTypes)
  | _ => true
  end.

Lemma Mutation_proto_succeeds m :
  Mutation_valid m = true ↔ succeeds (schema.Mutation_proto m).
Proof.
  unfold succeeds. destruct m as [|n|t|u|i|u|u]; simpl;
    try (split; [by eexists|done]).
  - split; [done|]. by intros [w H].
  - rewrite bool_decide_eq_true. split.
    + intros Ht. destruct (proj1 Type_proto_known_unknown t Ht) as (pt & -> & _). by eexists.
    + intros [w H]. destruct (decide (t ∈ fieldTypes)) as [|Hn]; [done|].
      rewrite (proj2 Type_proto_known_unknown t Hn) in H. discriminate.
Qed.

(** X28. [Schema.MutateField] marshals exactly the lists of mutations that
    hold no nil and whose type mutations name one of the five types.  It
    then makes one remote call, which carries the caller's context as it is
    (the client's project and collection are not attached), the field name
    and one wire mutation per mutation, and it returns the aggregate error of
    the statuses or the transport's error. *)
Theorem MutateField_call (h : adminHandler) (c : Client) (ctx : gmap string string)
    (name : string) (muts : list schema.Mutation) :
  (forallb Mutation_valid muts = true ↔ ∃ pbMuts, schema.mutations_proto muts = Ok pbMuts) ∧
  ∀ pbMuts, schema.mutations_proto muts = Ok pbMuts →
    length pbMuts = length muts ∧
    adminCalls h (Schema_MutateField_ c ctx name muts)
      = [existT _ (Schema_MutateField ctx (schemapb.mkMutateFieldRequest name pbMuts))] ∧
    adminRun h (Schema_MutateField_ c ctx name muts)
      = Some match h _ (Schema_MutateField ctx
                          (schemapb.mkMutateFieldRequest name pbMuts)) with
             | Reply resp => schema.multiErrorFromSchemaStatusProto (resp.Status resp)
             | Fault err => Some err
             end.
Proof.
  split.
  - apply (collect_succeeds schema.Mutation_proto Mutation_valid muts).
    apply Mutation_proto_succeeds.
  - intros pbMuts H. split; [by apply collect_length in H|].
    unfold Schema_MutateField_. rewrite H. simpl.
    split; by destruct (h _ (Schema_MutateField _ _)).
Qed.

Lemma MutateField_call_witness :
  ∃ pbMuts,
    schema.mutations_proto [schema.NameMutation "cost"; schema.TypeMutation "FLOAT"]
      = Ok pbMuts ∧
    length pbMuts = 2%nat.
Proof.
  destruct (MutateField_call (adminService (Fault ErrNoSuchRecord)
                                (Fault ErrNoSuchRecord) (Fault ErrNoSuchRecord)
                                (Reply (resp.mkStatuses [statusOK; statusOK])))
              exampleClient ∅ "price"
              [schema.NameMutation "cost"; schema.TypeMutation "FLOAT"])
    as [Hvalid Hcall].
  destruct (proj1 Hvalid) as [pbMuts HpbMuts]; [vm_compute; reflexivity|].
  exists pbMuts. split; [exact HpbMuts|]. exact (proj1 (Hcall pbMuts HpbMuts)).
Defined.
